(** * mongox/spec: filters, updates and aggregation pipelines

    A shallow embedding of the Go package [spec] (files [spec.go],
    [logical.go], [update.go], [pipeline.go]) together with the properties
    its specification states about it.

    Go's [bson.M] is a reference type: a map value is a pointer to a map
    object, several values may denote the same object, and a write through
    one of them is seen through all of them.  The embedding therefore keeps
    an explicit store of map objects and runs the package's code in a small
    state-and-panic monad over that store.

    The file has two parts.  The first holds the definitions: the store
    ([bson]), the package ([spec]), and the predicates the statements are
    written with.  The second holds the properties: construction
    (flattening, collapse, nil dropping, the normalization invariant),
    compilation of filters, pipeline stages, the merge of [Combine],
    totality, and the effect of a compilation on the store. *)

From Stdlib Require Import ZArith.
From stdpp Require Import gmap strings list fin_maps.

Set Warnings "-register-all".

Open Scope string_scope.
Open Scope list_scope.
Open Scope nat_scope.

(** ** The store of [bson.M] objects *)

Module bson.

(** A location names one map object. *)
Definition loc := nat.

(** Values of Go's [any] as the package handles them.  A [bson.M] is either
    the nil map or a reference; slices are kept by value (the package never
    writes into an element of a slice it was given or has returned). *)
Inductive value : Type :=
| VNil                              (* the nil interface *)
| VBool (b : bool)
| VInt (z : Z)                      (* int and int64 *)
| VStr (s : string)
| VM (m : option loc)               (* bson.M *)
| VMs (ms : list (option loc))      (* []bson.M *)
| VStrs (ss : list string)          (* []string *)
| VAnys (vs : list value).          (* []any *)

(** A map object, and the store: the object at index [l] is the one that
    location [l] names.  Objects are never freed. *)
Abbreviation object := (gmap string value).
Abbreviation heap := (list (gmap string value)).

(** What stops a Go program. *)
Inductive panic : Type :=
| NilDeref        (* method call on a nil interface value *)
| NilMapWrite     (* assignment to entry in nil map *)
| BadRef.         (* a location outside the store: no Go counterpart *)

Inductive res (A : Type) : Type :=
| Done (a : A) (h : heap)
| Panic (e : panic).
Arguments Done {A} a h.
Arguments Panic {A} e.

(** Computations over the store. *)
Definition exec (A : Type) : Type := heap → res A.

Definition ret {A} (a : A) : exec A := λ h, Done a h.

Definition bind {A B} (k : A → exec B) (c : exec A) : exec B :=
  λ h, match c h with
       | Done a h' => k a h'
       | Panic e => Panic e
       end.

Definition raise {A} (e : panic) : exec A := λ _, Panic e.

(** stdpp's monad notations: [x ← c; k] and [c;; k]. *)
#[global] Instance exec_ret : MRet exec := @ret.
#[global] Instance exec_bind : MBind exec := @bind.

(** [bson.M{...}]: a composite literal allocates a new object. *)
Definition new_map (m : gmap string value) : exec loc :=
  λ h, Done (length h) (h ++ [m]).

(** Reading the object behind a reference. *)
Definition load (l : loc) : exec (gmap string value) :=
  λ h, match h !! l with
       | Some m => Done m h
       | None => Panic BadRef
       end.

(** [m[k] = v] on a non-nil map. *)
Definition store (l : loc) (k : string) (v : value) : exec unit :=
  λ h, match h !! l with
       | Some m => Done tt (<[l := <[k := v]> m]> h)
       | None => Panic BadRef
       end.

(** [m[k] = v]: a write to the nil map panics. *)
Definition map_assign (m : option loc) (k : string) (v : value) : exec unit :=
  match m with
  | Some l => store l k v
  | None => raise NilMapWrite
  end.

(** [for k, v := range m]: the entries of [m]; the nil map has none.  Go
    visits them in an unspecified order; here it is the order of
    [map_to_list]. *)
Definition map_range (m : option loc) : exec (list (string * value)) :=
  match m with
  | Some l => o ← load l; mret (map_to_list o)
  | None => mret []
  end.

(** [v, ok := m[k]]: reading the nil map finds nothing. *)
Definition map_get (m : option loc) (k : string) : exec (option value) :=
  match m with
  | Some l => o ← load l; mret (o !! k)
  | None => mret None
  end.

(** [x.(bson.M)]: the type assertion succeeds on every value of dynamic
    type [bson.M], the nil map included. *)
Definition as_M (v : value) : option (option loc) :=
  match v with
  | VM m => Some m
  | _ => None
  end.

(** A loop over a list, in order. *)
Fixpoint for_each {A} (body : A → exec unit) (xs : list A) : exec unit :=
  match xs with
  | [] => mret tt
  | x :: xs' => body x;; for_each body xs'
  end.

End bson.
Import bson.

(** ** Package [spec] *)

Module spec.

(** *** Filters ([spec.go], [logical.go]) *)

(** The implementations of the interface [Filter].  A field of interface
    type may hold nil, hence [option]. *)
Inductive Filter : Type :=
| eqFilter (field : string) (value : value)
| opFilter (field op : string) (value : value)
| regexFilter (field pattern options : string)
| elemMatchFilter (field : string) (filter : option Filter)
| andFilter (filters : list (option Filter))
| orFilter (filters : list (option Filter))
| notFilter (filter : option Filter).

(** [ToMongo], one case per implementation.  The result is the location of
    the returned [bson.M]. *)
Fixpoint ToMongo (f : Filter) : exec loc :=
  let fix parts_of (fs : list (option Filter)) : exec (list loc) :=
    match fs with
    | [] => mret []
    | None :: fs' => parts_of fs'
    | Some flt :: fs' =>
        l ← ToMongo flt; ls ← parts_of fs'; mret (l :: ls)
    end in
  match f with
  | eqFilter field value => new_map {[field := value]}
  | opFilter field op value =>
      inner ← new_map {[op := value]};
      new_map {[field := VM (Some inner)]}
  | regexFilter field pattern options =>
      if decide (options = EmptyString) then
        inner ← new_map {["$regex" := VStr pattern]};
        new_map {[field := VM (Some inner)]}
      else
        inner ← new_map (<["$options" := VStr options]>
                          {["$regex" := VStr pattern]});
        new_map {[field := VM (Some inner)]}
  | elemMatchFilter field filter =>
      match filter with
      | None =>
          empty ← new_map ∅;
          inner ← new_map {["$elemMatch" := VM (Some empty)]};
          new_map {[field := VM (Some inner)]}
      | Some flt =>
          sub ← ToMongo flt;
          inner ← new_map {["$elemMatch" := VM (Some sub)]};
          new_map {[field := VM (Some inner)]}
      end
  | andFilter filters =>
      parts ← parts_of filters;
      match parts with
      | [p] => mret p
      | _ => new_map {["$and" := VMs (Some <$> parts)]}
      end
  | orFilter filters =>
      parts ← parts_of filters;
      match parts with
      | [p] => mret p
      | _ => new_map {["$or" := VMs (Some <$> parts)]}
      end
  | notFilter filter =>
      match filter with
      | None => raise NilDeref
      | Some flt =>
          sub ← ToMongo flt;
          new_map {["$nor" := VMs [Some sub]]}
      end
  end.

(** The loop of [andFilter.ToMongo] and [orFilter.ToMongo]: nil children are
    skipped, the others compiled in order. *)
Fixpoint parts_of (fs : list (option Filter)) : exec (list loc) :=
  match fs with
  | [] => mret []
  | None :: fs' => parts_of fs'
  | Some flt :: fs' =>
      l ← ToMongo flt; ls ← parts_of fs'; mret (l :: ls)
  end.

(** A method call [f.ToMongo()] on an interface value: nil panics. *)
Definition call_ToMongo (f : option Filter) : exec loc :=
  match f with
  | Some flt => ToMongo flt
  | None => raise NilDeref
  end.

Definition Eq (field : string) (value : value) : option Filter :=
  Some (eqFilter field value).
Definition Ne (field : string) (value : value) : option Filter :=
  Some (opFilter field "$ne" value).
Definition Gt (field : string) (value : value) : option Filter :=
  Some (opFilter field "$gt" value).
Definition Gte (field : string) (value : value) : option Filter :=
  Some (opFilter field "$gte" value).
Definition Lt (field : string) (value : value) : option Filter :=
  Some (opFilter field "$lt" value).
Definition Lte (field : string) (value : value) : option Filter :=
  Some (opFilter field "$lte" value).
Definition In (field : string) (values : value) : option Filter :=
  Some (opFilter field "$in" values).
Definition NotIn (field : string) (values : value) : option Filter :=
  Some (opFilter field "$nin" values).
Definition Exists (field : string) (exists_ : bool) : option Filter :=
  Some (opFilter field "$exists" (VBool exists_)).
Definition Nin (field : string) (values : value) : option Filter :=
  NotIn field values.
Definition Regex (field pattern : string) (options : list string)
  : option Filter :=
  let opts := match options with o :: _ => o | [] => EmptyString end in
  Some (regexFilter field pattern opts).
Definition All (field : string) (values : value) : option Filter :=
  Some (opFilter field "$all" values).
Definition Size (field : string) (size : Z) : option Filter :=
  Some (opFilter field "$size" (VInt size)).
Definition ElemMatch (field : string) (filter : option Filter)
  : option Filter :=
  Some (elemMatchFilter field filter).

(** The loop of [And]: nil arguments are dropped, the children of an
    [andFilter] argument are spliced in. *)
Fixpoint flatAnd (filters : list (option Filter)) : list (option Filter) :=
  match filters with
  | [] => []
  | None :: rest => flatAnd rest
  | Some (andFilter fs) :: rest => fs ++ flatAnd rest
  | Some f :: rest => Some f :: flatAnd rest
  end.

Definition And (filters : list (option Filter)) : option Filter :=
  let flat := flatAnd filters in
  match flat with
  | [] => None
  | [f] => f
  | _ => Some (andFilter flat)
  end.

Fixpoint flatOr (filters : list (option Filter)) : list (option Filter) :=
  match filters with
  | [] => []
  | None :: rest => flatOr rest
  | Some (orFilter fs) :: rest => fs ++ flatOr rest
  | Some f :: rest => Some f :: flatOr rest
  end.

Definition Or (filters : list (option Filter)) : option Filter :=
  let flat := flatOr filters in
  match flat with
  | [] => None
  | [f] => f
  | _ => Some (orFilter flat)
  end.

Definition Not (filter : option Filter) : option Filter :=
  match filter with
  | None => None
  | Some f => Some (notFilter (Some f))
  end.

Definition Between (field : string) (min max : value) : option Filter :=
  And [Gte field min; Lte field max].

(** *** Updates ([update.go]) *)

(** The implementations of the interface [Update]. *)
Inductive Update : Type :=
| setUpdate (field : string) (value : value)
| incUpdate (field : string) (value : value)
| pushUpdate (field : string) (value : value)
| pullUpdate (field : string) (value : value)
| unsetUpdate (field : string)
| setFieldsUpdate (fields : option loc)
| combinedUpdate (updates : list (option Update))
| addToSetUpdate (field : string) (value : value)
| popUpdate (field : string) (position : Z)
| mulUpdate (field : string) (value : value)
| minUpdate (field : string) (value : value)
| maxUpdate (field : string) (value : value)
| renameUpdate (oldField newField : string).

(** [bson.M{op: bson.M{field: value}}], the shape of every single-field
    leaf. *)
Definition leaf_update (op field : string) (value : value) : exec loc :=
  inner ← new_map {[field := value]};
  new_map {[op := VM (Some inner)]}.

(** The innermost loop of [combinedUpdate.ToBsonUpdate]:
    [for field, val := range newMap { existingMap[field] = val }]. *)
Definition merge_fields (existingMap newMap : option loc) : exec unit :=
  entries ← map_range newMap;
  for_each (λ fv : string * value, map_assign existingMap fv.1 fv.2) entries.

(** The body of the loop over one child's compiled map: the entry [k, v]
    is merged into [result]. *)
Definition merge_entry (result : loc) (kv : string * value) : exec unit :=
  let '(k, v) := kv in
  existing ← map_get (Some result) k;
  match existing with
  | Some ex =>
      match as_M ex with
      | Some existingMap =>
          match as_M v with
          | Some newMap => merge_fields existingMap newMap
          | None => store result k v
          end
      | None => store result k v
      end
  | None => store result k v
  end.

(** [for k, v := range compiled { ... }] for one child. *)
Definition merge_child (result compiled : loc) : exec unit :=
  entries ← map_range (Some compiled);
  for_each (merge_entry result) entries.

(** [ToBsonUpdate], one case per implementation. *)
Fixpoint ToBsonUpdate (u : Update) : exec loc :=
  match u with
  | setUpdate field value => leaf_update "$set" field value
  | incUpdate field value => leaf_update "$inc" field value
  | pushUpdate field value => leaf_update "$push" field value
  | pullUpdate field value => leaf_update "$pull" field value
  | unsetUpdate field => leaf_update "$unset" field (VStr EmptyString)
  | setFieldsUpdate fields => new_map {["$set" := VM fields]}
  | combinedUpdate updates =>
      result ← new_map ∅;
      (fix loop (us : list (option Update)) : exec unit :=
         match us with
         | [] => mret tt
         | update :: us' =>
             compiled ← match update with
                        | Some c => ToBsonUpdate c
                        | None => raise NilDeref
                        end;
             merge_child result compiled;;
             loop us'
         end) updates;;
      mret result
  | addToSetUpdate field value => leaf_update "$addToSet" field value
  | popUpdate field position => leaf_update "$pop" field (VInt position)
  | mulUpdate field value => leaf_update "$mul" field value
  | minUpdate field value => leaf_update "$min" field value
  | maxUpdate field value => leaf_update "$max" field value
  | renameUpdate oldField newField =>
      leaf_update "$rename" oldField (VStr newField)
  end.

(** A method call [u.ToBsonUpdate()] on an interface value. *)
Definition call_ToBsonUpdate (u : option Update) : exec loc :=
  match u with
  | Some c => ToBsonUpdate c
  | None => raise NilDeref
  end.

(** The outer loop of [combinedUpdate.ToBsonUpdate]. *)
Definition merge_children (result : loc)
  : list (option Update) → exec unit :=
  fix loop (us : list (option Update)) : exec unit :=
    match us with
    | [] => mret tt
    | update :: us' =>
        compiled ← call_ToBsonUpdate update;
        merge_child result compiled;;
        loop us'
    end.

Definition Set' (field : string) (value : value) : option Update :=
  Some (setUpdate field value).
Definition Inc (field : string) (value : value) : option Update :=
  Some (incUpdate field value).
Definition Push (field : string) (value : value) : option Update :=
  Some (pushUpdate field value).
Definition Pull (field : string) (value : value) : option Update :=
  Some (pullUpdate field value).
Definition Unset (field : string) : option Update :=
  Some (unsetUpdate field).
Definition SetFields (fields : option loc) : option Update :=
  Some (setFieldsUpdate fields).
Definition AddToSet (field : string) (value : value) : option Update :=
  Some (addToSetUpdate field value).
Definition PopFirst (field : string) : option Update :=
  Some (popUpdate field (-1)).
Definition PopLast (field : string) : option Update :=
  Some (popUpdate field 1).
Definition Mul (field : string) (value : value) : option Update :=
  Some (mulUpdate field value).
Definition Min (field : string) (value : value) : option Update :=
  Some (minUpdate field value).
Definition Max (field : string) (value : value) : option Update :=
  Some (maxUpdate field value).
Definition Rename (oldField newField : string) : option Update :=
  Some (renameUpdate oldField newField).

(** The loop of [Combine]: the non-nil arguments, in order. *)
Fixpoint nonNil (updates : list (option Update)) : list (option Update) :=
  match updates with
  | [] => []
  | None :: rest => nonNil rest
  | Some u :: rest => Some u :: nonNil rest
  end.

Definition Combine (updates : list (option Update)) : option Update :=
  let nonNil := nonNil updates in
  match nonNil with
  | [] => None
  | [u] => u
  | _ => Some (combinedUpdate nonNil)
  end.

(** *** Aggregation pipelines ([pipeline.go]) *)

(** The builder.  Its methods have a pointer receiver, assign to
    [p.stages] and return [p]; here each takes the builder and returns the
    builder it leaves.  The stages are references to map objects of the
    store. *)
Record Pipeline : Type := { stages : list (option loc) }.

Definition NewPipeline : Pipeline := {| stages := [] |}.

(** [ToPipeline] returns the field [p.stages] itself: no copy is made.  In
    Go the caller gets a slice over the builder's own array; here the list
    is a value, and what the caller shares with the builder shows on the
    stage objects, which are the same locations. *)
Definition ToPipeline (p : Pipeline) : list (option loc) := stages p.

(** [p.stages = append(p.stages, stage)]. *)
Definition append_stage (p : Pipeline) (stage : option loc) : Pipeline :=
  {| stages := stages p ++ [stage] |}.

(** [p.stages = append(p.stages, bson.M{key: v})]. *)
Definition add_stage (key : string) (v : value) (p : Pipeline)
  : exec Pipeline :=
  stage ← new_map {[key := v]};
  mret (append_stage p (Some stage)).

Definition Pipeline_Match (filter : option Filter) (p : Pipeline)
  : exec Pipeline :=
  match filter with
  | Some f => m ← ToMongo f; add_stage "$match" (VM (Some m)) p
  | None => mret p
  end.

Definition Pipeline_MatchRaw (filter : option loc) (p : Pipeline)
  : exec Pipeline :=
  match filter with
  | Some _ => add_stage "$match" (VM filter) p
  | None => mret p
  end.

Definition Pipeline_Project (projection : option loc) (p : Pipeline)
  : exec Pipeline :=
  add_stage "$project" (VM projection) p.

Definition Pipeline_Group (groupSpec : option loc) (p : Pipeline)
  : exec Pipeline :=
  add_stage "$group" (VM groupSpec) p.

Definition Pipeline_GroupBy (idExpr : value) (accumulators : option loc)
    (p : Pipeline) : exec Pipeline :=
  groupSpec ← new_map {["_id" := idExpr]};
  entries ← map_range accumulators;
  for_each (λ kv : string * value, store groupSpec kv.1 kv.2) entries;;
  add_stage "$group" (VM (Some groupSpec)) p.

Definition Pipeline_Sort (sort : value) (p : Pipeline) : exec Pipeline :=
  add_stage "$sort" sort p.

Definition Pipeline_SortBy (field : string) (order : Z) (p : Pipeline)
  : exec Pipeline :=
  inner ← new_map {[field := VInt order]};
  add_stage "$sort" (VM (Some inner)) p.

Definition Pipeline_Limit (n : Z) (p : Pipeline) : exec Pipeline :=
  add_stage "$limit" (VInt n) p.

Definition Pipeline_Skip (n : Z) (p : Pipeline) : exec Pipeline :=
  add_stage "$skip" (VInt n) p.

Definition Pipeline_Unwind (path : string) (p : Pipeline) : exec Pipeline :=
  add_stage "$unwind" (VStr path) p.

Definition Pipeline_UnwindWithOptions (path : string)
    (preserveNullAndEmpty : bool) (includeArrayIndex : string)
    (p : Pipeline) : exec Pipeline :=
  unwindSpec ← new_map {["path" := VStr path]};
  (if preserveNullAndEmpty
   then store unwindSpec "preserveNullAndEmptyArrays" (VBool true)
   else mret tt);;
  (if decide (includeArrayIndex = EmptyString)
   then mret tt
   else store unwindSpec "includeArrayIndex" (VStr includeArrayIndex));;
  add_stage "$unwind" (VM (Some unwindSpec)) p.

Definition Pipeline_Lookup (from localField foreignField as_ : string)
    (p : Pipeline) : exec Pipeline :=
  inner ← new_map (<["from" := VStr from]>
                   (<["localField" := VStr localField]>
                    (<["foreignField" := VStr foreignField]>
                     {["as" := VStr as_]})));
  add_stage "$lookup" (VM (Some inner)) p.

Definition Pipeline_LookupWithPipeline (from : string) (let_ : option loc)
    (pipeline : list (option loc)) (as_ : string) (p : Pipeline)
  : exec Pipeline :=
  lookupSpec ← new_map (<["from" := VStr from]>
                        (<["pipeline" := VMs pipeline]>
                         {["as" := VStr as_]}));
  (match let_ with
   | Some _ => store lookupSpec "let" (VM let_)
   | None => mret tt
   end);;
  add_stage "$lookup" (VM (Some lookupSpec)) p.

Definition Pipeline_AddFields (fields : option loc) (p : Pipeline)
  : exec Pipeline :=
  add_stage "$addFields" (VM fields) p.

Definition Pipeline_Set (fields : option loc) (p : Pipeline)
  : exec Pipeline :=
  add_stage "$set" (VM fields) p.

Definition Pipeline_Unset (fields : list string) (p : Pipeline)
  : exec Pipeline :=
  match fields with
  | [field] => add_stage "$unset" (VStr field) p
  | _ => add_stage "$unset" (VStrs fields) p
  end.

Definition Pipeline_ReplaceRoot (newRoot : value) (p : Pipeline)
  : exec Pipeline :=
  inner ← new_map {["newRoot" := newRoot]};
  add_stage "$replaceRoot" (VM (Some inner)) p.

Definition Pipeline_Count (field : string) (p : Pipeline) : exec Pipeline :=
  add_stage "$count" (VStr field) p.

Definition Pipeline_Facet (facets : option loc) (p : Pipeline)
  : exec Pipeline :=
  add_stage "$facet" (VM facets) p.

Definition Pipeline_Bucket (groupBy : value) (boundaries : list value)
    (defaultBucket : value) (output : option loc) (p : Pipeline)
  : exec Pipeline :=
  bucketSpec ← new_map (<["groupBy" := groupBy]>
                        {["boundaries" := VAnys boundaries]});
  (match defaultBucket with
   | VNil => mret tt
   | _ => store bucketSpec "default" defaultBucket
   end);;
  (match output with
   | Some _ => store bucketSpec "output" (VM output)
   | None => mret tt
   end);;
  add_stage "$bucket" (VM (Some bucketSpec)) p.

Definition Pipeline_Sample (size : Z) (p : Pipeline) : exec Pipeline :=
  inner ← new_map {["size" := VInt size]};
  add_stage "$sample" (VM (Some inner)) p.

Definition Pipeline_Out (collection : string) (p : Pipeline)
  : exec Pipeline :=
  add_stage "$out" (VStr collection) p.

Definition Pipeline_Merge (into : string) (on : list string)
    (whenMatched whenNotMatched : string) (p : Pipeline) : exec Pipeline :=
  mergeSpec ← new_map {["into" := VStr into]};
  (match on with
   | [] => mret tt
   | _ => store mergeSpec "on" (VStrs on)
   end);;
  (if decide (whenMatched = EmptyString)
   then mret tt
   else store mergeSpec "whenMatched" (VStr whenMatched));;
  (if decide (whenNotMatched = EmptyString)
   then mret tt
   else store mergeSpec "whenNotMatched" (VStr whenNotMatched));;
  add_stage "$merge" (VM (Some mergeSpec)) p.

Definition Pipeline_Raw (stage : option loc) (p : Pipeline)
  : exec Pipeline :=
  mret (append_stage p stage).

(** Accumulator helpers: each returns a new one-key map. *)
Definition Sum (expr : value) : exec loc := new_map {["$sum" := expr]}.
Definition Avg (expr : value) : exec loc := new_map {["$avg" := expr]}.
Definition MinAcc (expr : value) : exec loc := new_map {["$min" := expr]}.
Definition MaxAcc (expr : value) : exec loc := new_map {["$max" := expr]}.
Definition First (expr : value) : exec loc := new_map {["$first" := expr]}.
Definition Last (expr : value) : exec loc := new_map {["$last" := expr]}.
Definition PushAcc (expr : value) : exec loc := new_map {["$push" := expr]}.
Definition AddToSetAcc (expr : value) : exec loc :=
  new_map {["$addToSet" := expr]}.

End spec.
Import spec.

(** ** The normalization invariant of filter trees *)

Definition isAnd (f : Filter) : bool :=
  match f with andFilter _ => true | _ => false end.

Definition isOr (f : Filter) : bool :=
  match f with orFilter _ => true | _ => false end.

(** [normalized f]: in [f] and below, every [andFilter] and [orFilter]
    holds at least two children, none of them nil and none of them a
    container of the same kind, and no [notFilter] holds nil. *)
Fixpoint normalized (f : Filter) : bool :=
  match f with
  | eqFilter _ _ | opFilter _ _ _ | regexFilter _ _ _ => true
  | elemMatchFilter _ None => true
  | elemMatchFilter _ (Some g) => normalized g
  | andFilter fs =>
      (2 <=? length fs) &&
      forallb (λ c, match c with
                    | Some g => negb (isAnd g) && normalized g
                    | None => false
                    end) fs
  | orFilter fs =>
      (2 <=? length fs) &&
      forallb (λ c, match c with
                    | Some g => negb (isOr g) && normalized g
                    | None => false
                    end) fs
  | notFilter None => false
  | notFilter (Some g) => normalized g
  end.

(** A value of interface type [Filter]: nil, or a normalized tree. *)
Definition wf (f : option Filter) : bool :=
  match f with
  | None => true
  | Some g => normalized g
  end.

(** What a child of an [andFilter] must be. *)
Definition and_child (c : option Filter) : bool :=
  match c with
  | Some g => negb (isAnd g) && normalized g
  | None => false
  end.

Definition or_child (c : option Filter) : bool :=
  match c with
  | Some g => negb (isOr g) && normalized g
  | None => false
  end.

(** The filters a client of the package can hold: nil, and whatever the
    exported constructors return on such filters.  The struct types are
    not exported, so there is no other way to one. *)
Inductive Reachable : option Filter → Prop :=
| R_nil : Reachable None
| R_Eq field v : Reachable (Eq field v)
| R_Ne field v : Reachable (Ne field v)
| R_Gt field v : Reachable (Gt field v)
| R_Gte field v : Reachable (Gte field v)
| R_Lt field v : Reachable (Lt field v)
| R_Lte field v : Reachable (Lte field v)
| R_In field v : Reachable (In field v)
| R_NotIn field v : Reachable (NotIn field v)
| R_Exists field b : Reachable (Exists field b)
| R_Nin field v : Reachable (Nin field v)
| R_Regex field pattern options : Reachable (Regex field pattern options)
| R_All field v : Reachable (All field v)
| R_Size field n : Reachable (Size field n)
| R_ElemMatch field f : Reachable f → Reachable (ElemMatch field f)
| R_Between field lo hi : Reachable (Between field lo hi)
| R_And fs : (∀ f, f ∈ fs → Reachable f) → Reachable (And fs)
| R_Or fs : (∀ f, f ∈ fs → Reachable f) → Reachable (Or fs)
| R_Not f : Reachable f → Reachable (Not f).

(** ** Induction principles *)

(** Induction over filter trees, through the lists of children. *)
Section Filter_induction.

Variable P : Filter → Prop.

(** [on_some Q c]: [Q] holds of the child [c] when it is not nil. *)
Definition on_some {A} (Q : A → Prop) (c : option A) : Prop :=
  match c with
  | Some g => Q g
  | None => True
  end.

Hypothesis H_eq : ∀ field v, P (eqFilter field v).
Hypothesis H_op : ∀ field op v, P (opFilter field op v).
Hypothesis H_regex : ∀ field pattern options,
  P (regexFilter field pattern options).
Hypothesis H_elem : ∀ field c, on_some P c → P (elemMatchFilter field c).
Hypothesis H_and : ∀ fs, Forall (on_some P) fs → P (andFilter fs).
Hypothesis H_or : ∀ fs, Forall (on_some P) fs → P (orFilter fs).
Hypothesis H_not : ∀ c, on_some P c → P (notFilter c).

Fixpoint Filter_tree_ind (f : Filter) : P f :=
  let child (c : option Filter) : on_some P c :=
    match c with
    | Some g => Filter_tree_ind g
    | None => I
    end in
  let children :=
    fix go (l : list (option Filter)) : Forall (on_some P) l :=
      match l with
      | [] => List.Forall_nil _
      | c :: l' => List.Forall_cons _ c l' (child c) (go l')
      end in
  match f with
  | eqFilter field v => H_eq field v
  | opFilter field op v => H_op field op v
  | regexFilter field pattern options => H_regex field pattern options
  | elemMatchFilter field c => H_elem field c (child c)
  | andFilter fs => H_and fs (children fs)
  | orFilter fs => H_or fs (children fs)
  | notFilter c => H_not c (child c)
  end.

End Filter_induction.

(** Induction over update trees. *)
Section Update_induction.

Variable P : Update → Prop.

Hypothesis H_leaf : ∀ u,
  match u with combinedUpdate _ => False | _ => True end → P u.
Hypothesis H_combined : ∀ us,
  Forall (on_some P) us → P (combinedUpdate us).

Fixpoint Update_tree_ind (u : Update) : P u :=
  let children :=
    fix go (l : list (option Update)) : Forall (on_some P) l :=
      match l with
      | [] => List.Forall_nil _
      | c :: l' =>
          List.Forall_cons _ c l'
            (match c return on_some P c with
             | Some g => Update_tree_ind g
             | None => I
             end) (go l')
      end in
  match u with
  | combinedUpdate us => H_combined us (children us)
  | u' => H_leaf u' I
  end.

End Update_induction.

(** ** Vocabulary of the statements *)

(** [fresh_in h l h']: the store [h'] is [h] with objects added at its end,
    and [l] is one of the added objects. *)
Definition fresh_in (h : heap) (l : loc) (h' : heap) : Prop :=
  h `prefix_of` h' ∧ length h ≤ l < length h'.

(** The object after [m[k] = v] for each entry, in order. *)
Definition put_all (entries : list (string * value)) (m : gmap string value)
  : gmap string value :=
  foldl (λ acc kv, <[kv.1 := kv.2]> acc) m entries.

(** The entries a [range] over the map [m] visits: none for the nil map. *)
Definition deref (h : heap) (m : option loc) : option (gmap string value) :=
  match m with
  | Some l => h !! l
  | None => Some ∅
  end.

(** The operator key, field and value of a single-field leaf. *)
Definition leaf_parts (u : Update) : option (string * string * value) :=
  match u with
  | setUpdate field value => Some ("$set", field, value)
  | incUpdate field value => Some ("$inc", field, value)
  | pushUpdate field value => Some ("$push", field, value)
  | pullUpdate field value => Some ("$pull", field, value)
  | unsetUpdate field => Some ("$unset", field, VStr EmptyString)
  | addToSetUpdate field value => Some ("$addToSet", field, value)
  | popUpdate field position => Some ("$pop", field, VInt position)
  | mulUpdate field value => Some ("$mul", field, value)
  | minUpdate field value => Some ("$min", field, value)
  | maxUpdate field value => Some ("$max", field, value)
  | renameUpdate oldField newField => Some ("$rename", oldField, VStr newField)
  | setFieldsUpdate _ | combinedUpdate _ => None
  end.

(** *** Relocation: compiling from a longer store *)

(** [shift_loc n d l]: the references to objects from [n] on are displaced
    by [d]. *)
Definition shift_loc (n d : nat) (l : loc) : loc :=
  if decide (n ≤ l) then l + d else l.

(** The same for a [bson.M] and for any value. *)
Definition shift_M (n d : nat) (m : option loc) : option loc :=
  match m with
  | Some l => Some (shift_loc n d l)
  | None => None
  end.

Fixpoint shift (n d : nat) (v : value) : value :=
  match v with
  | VM m => VM (shift_M n d m)
  | VMs ms => VMs (shift_M n d <$> ms)
  | VAnys vs => VAnys (shift n d <$> vs)
  | _ => v
  end.

(** [below n v]: every reference in [v] is to an object below [n]. *)
Definition below_M (n : nat) (m : option loc) : bool :=
  match m with
  | Some l => bool_decide (l < n)
  | None => true
  end.

Fixpoint below (n : nat) (v : value) : bool :=
  match v with
  | VM m => below_M n m
  | VMs ms => forallb (below_M n) ms
  | VAnys vs => forallb (below n) vs
  | _ => true
  end.

(** [Filter_below n f]: the values held in the tree [f] refer below [n]. *)
Fixpoint Filter_below (n : nat) (f : Filter) : bool :=
  match f with
  | eqFilter _ v => below n v
  | opFilter _ _ v => below n v
  | regexFilter _ _ _ => true
  | elemMatchFilter _ None => true
  | elemMatchFilter _ (Some g) => Filter_below n g
  | andFilter fs =>
      forallb (λ c, match c with
                    | Some g => Filter_below n g
                    | None => true
                    end) fs
  | orFilter fs =>
      forallb (λ c, match c with
                    | Some g => Filter_below n g
                    | None => true
                    end) fs
  | notFilter None => true
  | notFilter (Some g) => Filter_below n g
  end.

(** Induction over values, through the lists of [VAnys]. *)
Section Value_induction.

Variable P : value → Prop.
Hypothesis H_atom : ∀ v,
  match v with VAnys _ => False | _ => True end → P v.
Hypothesis H_anys : ∀ vs, Forall P vs → P (VAnys vs).

Fixpoint value_tree_ind (v : value) : P v :=
  match v with
  | VAnys vs =>
      H_anys vs
        ((fix go (l : list value) : Forall P l :=
            match l with
            | [] => List.Forall_nil _
            | x :: l' => List.Forall_cons _ x l' (value_tree_ind x) (go l')
            end) vs)
  | v' => H_atom v' I
  end.

End Value_induction.

(** A map object with its entries displaced. *)
Definition shift_obj (n d : nat) (o : gmap string value)
  : gmap string value :=
  shift n d <$> o.

(** [relocate n d b h2 t]: the store [t], whose first [b] objects are
    replaced by the store [h2] and whose other objects have their
    references from [n] on displaced by [d]. *)
Definition relocate (n d b : nat) (h2 t : heap) : heap :=
  h2 ++ (shift_obj n d <$> drop b t).

(** *** Updates that hold no field map of their own *)

(** [no_SetFields u]: no [setFieldsUpdate] occurs in the tree [u]. *)
Fixpoint no_SetFields (u : Update) : bool :=
  match u with
  | setFieldsUpdate _ => false
  | combinedUpdate us =>
      forallb (λ c, match c with
                    | Some g => no_SetFields g
                    | None => true
                    end) us
  | _ => true
  end.

(** [Update_below n u]: the values and field maps held in the tree [u]
    refer below [n]. *)
Fixpoint Update_below (n : nat) (u : Update) : bool :=
  match u with
  | combinedUpdate us =>
      forallb (λ c, match c with
                    | Some g => Update_below n g
                    | None => true
                    end) us
  | setFieldsUpdate fields => below_M n fields
  | leaf =>
      match leaf_parts leaf with
      | Some (_, _, v) => below n v
      | None => true
      end
  end.

(** [payloads lo t o]: every entry of the object [o] is a reference to a
    map object of the store [t] at [lo] or later. *)
Definition payloads (lo : nat) (t : heap) (o : gmap string value) : Prop :=
  ∀ k v, o !! k = Some v → ∃ e, v = VM (Some e) ∧ lo ≤ e < length t.

(** The state of the loop of [combinedUpdate.ToBsonUpdate] started from
    the store [t]: [t] is still there, and [result], the first object
    after it, holds references to later objects only. *)
Definition merging (t s : heap) : Prop :=
  t `prefix_of` s ∧
  ∃ r, s !! length t = Some r ∧ payloads (S (length t)) s r.

(** What compiling [u] from [h] gives: new objects only, and a result
    whose entries are references to new objects. *)
Definition compiles_fresh (u : Update) : Prop :=
  ∀ (h : heap) l h', ToBsonUpdate u h = Done l h' →
    fresh_in h l h' ∧ ∃ o, h' !! l = Some o ∧ payloads (length h) h' o.

(** The entries of a compiled child. *)
Definition payload_entries (lo hi : nat) (entries : list (string * value))
  : Prop :=
  Forall (λ kv, ∃ e, kv.2 = VM (Some e) ∧ lo ≤ e < hi) entries.

(** [relocates n d h1 h2 u]: compiling [u] from a store relocated behind
    [h2] gives the relocated result. *)
Definition relocates (n d : nat) (h1 h2 : heap) (u : Update) : Prop :=
  Update_below n u = true →
  ∀ t l t', h1 `prefix_of` t → ToBsonUpdate u t = Done l t' →
    ToBsonUpdate u (relocate n d (length h1) h2 t) =
    Done (l + d) (relocate n d (length h1) h2 t').

(** [shares_no_object result p]: none of the maps of [result] is a stage
    object of the builder [p]. *)
Definition shares_no_object (result : list (option loc)) (p : Pipeline)
  : Prop :=
  ∀ l, Some l ∈ result → Some l ∉ stages p.

(** *** Combine over single-field leaves *)

(** The update document a list of single-field leaves stands for: under
    each operator key, the fields of the leaves with that key, the later
    leaf winning on a common field. *)
Definition merged_leaves (ls : list (string * string * value))
  : gmap string (gmap string value) :=
  foldl (λ acc l, <[l.1.1 := <[l.1.2 := l.2]> (default ∅ (acc !! l.1.1))]> acc)
        ∅ ls.

(** [reads_as h l M]: the object [l] of the store [h] is the update
    document [M]: it has the keys of [M], and under each key a reference
    to a map object with the content [M] gives. *)
Definition reads_as (h : heap) (l : loc) (M : gmap string (gmap string value))
  : Prop :=
  ∃ o, h !! l = Some o ∧
    ∀ op, match M !! op with
          | Some m => ∃ e, o !! op = Some (VM (Some e)) ∧ h !! e = Some m
          | None => o !! op = None
          end.

(** The state of the merge loop over leaves: [result] reads as [M], its
    payloads are objects allocated after it, one per key. *)
Definition merging_leaves (t s : heap) (M : gmap string (gmap string value))
  : Prop :=
  t `prefix_of` s ∧ length s ≠ length t ∧
  ∃ o, s !! length t = Some o ∧
    (∀ op, match M !! op with
           | Some m => ∃ e, o !! op = Some (VM (Some e)) ∧
                            length t < e < length s ∧ s !! e = Some m
           | None => o !! op = None
           end) ∧
    (∀ op1 op2 e, o !! op1 = Some (VM (Some e)) →
                  o !! op2 = Some (VM (Some e)) → op1 = op2).

(** *** Calls on a pipeline builder *)

(** One call of a stage method of the builder, with its arguments. *)
Inductive stage_call : Type :=
| call_Match (filter : option Filter)
| call_MatchRaw (filter : option loc)
| call_Project (projection : option loc)
| call_Group (groupSpec : option loc)
| call_GroupBy (idExpr : value) (accumulators : option loc)
| call_Sort (sort : value)
| call_SortBy (field : string) (order : Z)
| call_Limit (n : Z)
| call_Skip (n : Z)
| call_Unwind (path : string)
| call_UnwindWithOptions (path : string) (preserveNullAndEmpty : bool)
    (includeArrayIndex : string)
| call_Lookup (from localField foreignField as_ : string)
| call_LookupWithPipeline (from : string) (let_ : option loc)
    (pipeline : list (option loc)) (as_ : string)
| call_AddFields (fields : option loc)
| call_Set (fields : option loc)
| call_Unset (fields : list string)
| call_ReplaceRoot (newRoot : value)
| call_Count (field : string)
| call_Facet (facets : option loc)
| call_Bucket (groupBy : value) (boundaries : list value)
    (defaultBucket : value) (output : option loc)
| call_Sample (size : Z)
| call_Out (collection : string)
| call_Merge (into : string) (on : list string)
    (whenMatched whenNotMatched : string)
| call_Raw (stage : option loc).

(** The method a call runs. *)
Definition run_call (c : stage_call) : Pipeline → exec Pipeline :=
  match c with
  | call_Match filter => Pipeline_Match filter
  | call_MatchRaw filter => Pipeline_MatchRaw filter
  | call_Project projection => Pipeline_Project projection
  | call_Group groupSpec => Pipeline_Group groupSpec
  | call_GroupBy idExpr accumulators => Pipeline_GroupBy idExpr accumulators
  | call_Sort sort => Pipeline_Sort sort
  | call_SortBy field order => Pipeline_SortBy field order
  | call_Limit n => Pipeline_Limit n
  | call_Skip n => Pipeline_Skip n
  | call_Unwind path => Pipeline_Unwind path
  | call_UnwindWithOptions path preserve index =>
      Pipeline_UnwindWithOptions path preserve index
  | call_Lookup from localField foreignField as_ =>
      Pipeline_Lookup from localField foreignField as_
  | call_LookupWithPipeline from let_ pipeline as_ =>
      Pipeline_LookupWithPipeline from let_ pipeline as_
  | call_AddFields fields => Pipeline_AddFields fields
  | call_Set fields => Pipeline_Set fields
  | call_Unset fields => Pipeline_Unset fields
  | call_ReplaceRoot newRoot => Pipeline_ReplaceRoot newRoot
  | call_Count field => Pipeline_Count field
  | call_Facet facets => Pipeline_Facet facets
  | call_Bucket groupBy boundaries defaultBucket output =>
      Pipeline_Bucket groupBy boundaries defaultBucket output
  | call_Sample size => Pipeline_Sample size
  | call_Out collection => Pipeline_Out collection
  | call_Merge into on whenMatched whenNotMatched =>
      Pipeline_Merge into on whenMatched whenNotMatched
  | call_Raw stage => Pipeline_Raw stage
  end.

(** The calls that leave the builder as it is: a match on nil. *)
Definition adds_stage (c : stage_call) : bool :=
  match c with
  | call_Match None | call_MatchRaw None => false
  | _ => true
  end.

(** A chain of calls, [p.A(..).B(..)...]. *)
Fixpoint run_calls (cs : list stage_call) (p : Pipeline) : exec Pipeline :=
  match cs with
  | [] => mret p
  | c :: cs' => p' ← run_call c p; run_calls cs' p'
  end.

(** What a call needs of its arguments and of the store to run: a
    filter to match on is normalized, and the accumulators of [GroupBy]
    are nil or an object of the store. *)
Definition call_ready (h : heap) (c : stage_call) : Prop :=
  match c with
  | call_Match (Some f) => normalized f = true
  | call_GroupBy _ accumulators => is_Some (deref h accumulators)
  | _ => True
  end.

(** The key of the stage map a call appends; [Raw] appends the map it
    is given. *)
Definition stage_key (c : stage_call) : string :=
  match c with
  | call_Match _ | call_MatchRaw _ => "$match"
  | call_Project _ => "$project"
  | call_Group _ | call_GroupBy _ _ => "$group"
  | call_Sort _ | call_SortBy _ _ => "$sort"
  | call_Limit _ => "$limit"
  | call_Skip _ => "$skip"
  | call_Unwind _ | call_UnwindWithOptions _ _ _ => "$unwind"
  | call_Lookup _ _ _ _ | call_LookupWithPipeline _ _ _ _ => "$lookup"
  | call_AddFields _ => "$addFields"
  | call_Set _ => "$set"
  | call_Unset _ => "$unset"
  | call_ReplaceRoot _ => "$replaceRoot"
  | call_Count _ => "$count"
  | call_Facet _ => "$facet"
  | call_Bucket _ _ _ _ => "$bucket"
  | call_Sample _ => "$sample"
  | call_Out _ => "$out"
  | call_Merge _ _ _ _ => "$merge"
  | call_Raw _ => EmptyString
  end.

(** [stage_of h0 h c st]: [st] is the stage the call [c] appends, in
    the store [h]: the map given to [Raw], and for every other call a map
    object allocated after [h0] whose one key is the stage name. *)
Definition stage_of (h0 h : heap) (c : stage_call) (st : option loc) : Prop :=
  match c with
  | call_Raw stage => st = stage
  | _ => ∃ l v, st = Some l ∧ length h0 ≤ l ∧ h !! l = Some {[stage_key c := v]}
  end.

(** * Properties *)

(** ** The tests of the repository, run on the embedding *)

(** [TestAndTwoFilters] *)
Example test_AndTwoFilters :
  call_ToMongo (And [Eq "tenant_id" (VStr "t1"); Eq "paid" (VBool true)]) [] =
  Done 2 [ {["tenant_id" := VStr "t1"]}; {["paid" := VBool true]};
           {["$and" := VMs [Some 0; Some 1]]} ].
Proof. reflexivity. Qed.

(** [TestAndSingleFilterReturnsFilterDirectly] *)
Example test_AndSingleFilter :
  call_ToMongo (And [Eq "paid" (VBool true)]) [] =
  Done 0 [ {["paid" := VBool true]} ].
Proof. reflexivity. Qed.

(** [TestNotUsesNor] *)
Example test_NotUsesNor :
  call_ToMongo (Not (Eq "paid" (VBool true))) [] =
  Done 1 [ {["paid" := VBool true]}; {["$nor" := VMs [Some 0]]} ].
Proof. reflexivity. Qed.

(** [TestAndFlattensNestedAnd] *)
Example test_AndFlattensNestedAnd :
  call_ToMongo
    (And [And [Eq "a" (VInt 1); Eq "b" (VInt 2)]; Eq "c" (VInt 3)]) [] =
  Done 3 [ {["a" := VInt 1]}; {["b" := VInt 2]}; {["c" := VInt 3]};
           {["$and" := VMs [Some 0; Some 1; Some 2]]} ].
Proof. reflexivity. Qed.

(** [TestCombine], multiple set operations *)
Example test_Combine_same_key :
  call_ToBsonUpdate (Combine [Set' "a" (VInt 1); Set' "b" (VInt 2)]) [] =
  Done 0 [ {["$set" := VM (Some 1)]};
           <["b" := VInt 2]> {["a" := VInt 1]};
           {["$set" := VM (Some 1)]};
           {["b" := VInt 2]};
           {["$set" := VM (Some 3)]} ].
Proof. vm_compute. reflexivity. Qed.

(** [TestCombine], with nils *)
Example test_Combine_with_nils :
  Combine [None; Set' "name" (VStr "Jane"); None] = Set' "name" (VStr "Jane").
Proof. reflexivity. Qed.

(** [TestPipelineLimitSkip] *)
Example test_PipelineLimitSkip :
  (p ← Pipeline_Skip 10 NewPipeline; Pipeline_Limit 5 p) [] =
  Done {| stages := [Some 0; Some 1] |}
       [ {["$skip" := VInt 10]}; {["$limit" := VInt 5]} ].
Proof. reflexivity. Qed.

(** [TestPipelineMatchWithNil] *)
Example test_PipelineMatchWithNil :
  Pipeline_Match None NewPipeline [] = Done {| stages := [] |} [].
Proof. reflexivity. Qed.

(** ** Reasoning tools *)

(** Stepping through the monad. *)
Section Monad.

Context {A B : Type}.

Lemma bind_unfold (c : exec A) (k : A → exec B) h :
  (c ≫= k) h = match c h with
               | Done a h1 => k a h1
               | Panic e => Panic e
               end.
Proof. reflexivity. Qed.

Lemma bind_Done (c : exec A) (k : A → exec B) h b h' :
  (c ≫= k) h = Done b h' ↔ ∃ a h1, c h = Done a h1 ∧ k a h1 = Done b h'.
Proof.
  rewrite bind_unfold. split.
  - destruct (c h) as [a h1|e]; [eauto|done].
  - by intros (a & h1 & -> & ?).
Qed.

Lemma mret_unfold (a : A) h : (mret a : exec A) h = Done a h.
Proof. reflexivity. Qed.

End Monad.

Lemma new_map_unfold m (h : heap) : new_map m h = Done (length h) (h ++ [m]).
Proof. reflexivity. Qed.

Lemma ToMongo_and fs :
  ToMongo (andFilter fs) =
  (parts ← parts_of fs;
   match parts with
   | [p] => mret p
   | _ => new_map {["$and" := VMs (Some <$> parts)]}
   end).
Proof. reflexivity. Qed.

Lemma ToMongo_or fs :
  ToMongo (orFilter fs) =
  (parts ← parts_of fs;
   match parts with
   | [p] => mret p
   | _ => new_map {["$or" := VMs (Some <$> parts)]}
   end).
Proof. reflexivity. Qed.

Lemma ToBsonUpdate_combined us :
  ToBsonUpdate (combinedUpdate us) =
  (result ← new_map ∅; merge_children result us;; mret result).
Proof. reflexivity. Qed.

Lemma merge_children_cons result u us :
  merge_children result (u :: us) =
  (compiled ← call_ToBsonUpdate u;
   merge_child result compiled;;
   merge_children result us).
Proof. reflexivity. Qed.

(** ** Construction: nil dropping, flattening, collapse *)

Section Construction.

Lemma normalized_and fs :
  normalized (andFilter fs) = (2 <=? length fs) && forallb and_child fs.
Proof. reflexivity. Qed.

Lemma normalized_or fs :
  normalized (orFilter fs) = (2 <=? length fs) && forallb or_child fs.
Proof. reflexivity. Qed.

(** Dropping the nil arguments first changes nothing. *)
Lemma flatAnd_drop_nil fs :
  flatAnd (filter is_Some fs) = flatAnd fs.
Proof.
  induction fs as [|[g|] fs IH]; [done| |].
  - rewrite filter_cons_True by eauto. simpl. by rewrite IH.
  - rewrite filter_cons_False by (intros [? ?]; done). done.
Qed.

Lemma flatOr_drop_nil fs :
  flatOr (filter is_Some fs) = flatOr fs.
Proof.
  induction fs as [|[g|] fs IH]; [done| |].
  - rewrite filter_cons_True by eauto. simpl. by rewrite IH.
  - rewrite filter_cons_False by (intros [? ?]; done). done.
Qed.

Lemma nonNil_filter us : nonNil us = filter is_Some us.
Proof.
  induction us as [|[u|] us IH]; [done| |].
  - rewrite filter_cons_True by eauto. simpl. by rewrite IH.
  - rewrite filter_cons_False by (intros [? ?]; done). done.
Qed.

Lemma flatAnd_app xs ys : flatAnd (xs ++ ys) = flatAnd xs ++ flatAnd ys.
Proof.
  induction xs as [|[g|] xs IH]; simpl; [done| |done].
  destruct g; simpl; rewrite IH; try done. by rewrite app_assoc.
Qed.

Lemma flatOr_app xs ys : flatOr (xs ++ ys) = flatOr xs ++ flatOr ys.
Proof.
  induction xs as [|[g|] xs IH]; simpl; [done| |done].
  destruct g; simpl; rewrite IH; try done. by rewrite app_assoc.
Qed.

(** On normalized arguments the loop yields admissible children only. *)
Lemma flatAnd_normalized fs :
  (∀ f, f ∈ fs → wf f = true) → forallb and_child (flatAnd fs) = true.
Proof.
  induction fs as [|[g|] fs IH]; intros H; [done| |].
  - assert (Hg : normalized g = true) by (apply (H (Some g)); left).
    assert (Hfs : forallb and_child (flatAnd fs) = true)
      by (apply IH; intros f Hf; apply H; by right).
    destruct (isAnd g) eqn:Ek.
    + destruct g; try done. cbn [flatAnd].
      rewrite normalized_and in Hg. apply andb_prop in Hg as [_ Hg].
      rewrite forallb_app. by rewrite Hg, Hfs.
    + replace (flatAnd (Some g :: fs)) with (Some g :: flatAnd fs)
        by (by destruct g).
      cbn [forallb and_child]. by rewrite Ek, Hg, Hfs.
  - apply IH. intros f Hf. apply H. by right.
Qed.

Lemma flatOr_normalized fs :
  (∀ f, f ∈ fs → wf f = true) → forallb or_child (flatOr fs) = true.
Proof.
  induction fs as [|[g|] fs IH]; intros H; [done| |].
  - assert (Hg : normalized g = true) by (apply (H (Some g)); left).
    assert (Hfs : forallb or_child (flatOr fs) = true)
      by (apply IH; intros f Hf; apply H; by right).
    destruct (isOr g) eqn:Ek.
    + destruct g; try done. cbn [flatOr].
      rewrite normalized_or in Hg. apply andb_prop in Hg as [_ Hg].
      rewrite forallb_app. by rewrite Hg, Hfs.
    + replace (flatOr (Some g :: fs)) with (Some g :: flatOr fs)
        by (by destruct g).
      cbn [forallb or_child]. by rewrite Ek, Hg, Hfs.
  - apply IH. intros f Hf. apply H. by right.
Qed.

Lemma And_wf fs : (∀ f, f ∈ fs → wf f = true) → wf (And fs) = true.
Proof.
  intros H. pose proof (flatAnd_normalized fs H) as Hc. unfold And.
  destruct (flatAnd fs) as [|c [|c' flat]] eqn:E; [done| |].
  - simpl in Hc. destruct c as [g|]; [|done]. simpl.
    rewrite andb_true_r in Hc. by apply andb_prop in Hc as [_ ?].
  - unfold wf. rewrite normalized_and. by rewrite Hc.
Qed.

Lemma Or_wf fs : (∀ f, f ∈ fs → wf f = true) → wf (Or fs) = true.
Proof.
  intros H. pose proof (flatOr_normalized fs H) as Hc. unfold Or.
  destruct (flatOr fs) as [|c [|c' flat]] eqn:E; [done| |].
  - simpl in Hc. destruct c as [g|]; [|done]. simpl.
    rewrite andb_true_r in Hc. by apply andb_prop in Hc as [_ ?].
  - unfold wf. rewrite normalized_or. by rewrite Hc.
Qed.

Lemma Not_wf f : wf f = true → wf (Not f) = true.
Proof. by destruct f. Qed.

Lemma ElemMatch_wf field f : wf f = true → wf (ElemMatch field f) = true.
Proof. by destruct f. Qed.

(** Flattening the result of [And] gives the flat list back. *)
Lemma flatAnd_And fs rest :
  forallb and_child (flatAnd fs) = true →
  flatAnd (And fs :: rest) = flatAnd fs ++ flatAnd rest.
Proof.
  intros Hc. unfold And. destruct (flatAnd fs) as [|c [|c' flat]]; [done| |done].
  simpl in Hc. destruct c as [g|]; [|done].
  apply andb_prop in Hc as [Hg _]. apply andb_prop in Hg as [Hg _].
  by destruct g.
Qed.

Lemma flatOr_Or fs rest :
  forallb or_child (flatOr fs) = true →
  flatOr (Or fs :: rest) = flatOr fs ++ flatOr rest.
Proof.
  intros Hc. unfold Or. destruct (flatOr fs) as [|c [|c' flat]]; [done| |done].
  simpl in Hc. destruct c as [g|]; [|done].
  apply andb_prop in Hc as [Hg _]. apply andb_prop in Hg as [Hg _].
  by destruct g.
Qed.

Lemma wf_pair (a b : option Filter) :
  wf a = true → wf b = true → ∀ f, f ∈ [a; b] → wf f = true.
Proof.
  intros Ha Hb f [->|Hf]%elem_of_cons; [done|].
  by apply list_elem_of_singleton in Hf as ->.
Qed.

Lemma And_assoc_left a b c :
  wf a = true → wf b = true → And [And [a; b]; c] = And [a; b; c].
Proof.
  intros Ha Hb.
  assert (E : flatAnd [And [a; b]; c] = flatAnd [a; b; c]).
  { change [a; b; c] with ([a; b] ++ [c]). rewrite flatAnd_app.
    by apply flatAnd_And, flatAnd_normalized, wf_pair. }
  unfold And at 1 3. by rewrite E.
Qed.

Lemma Or_assoc_left a b c :
  wf a = true → wf b = true → Or [Or [a; b]; c] = Or [a; b; c].
Proof.
  intros Ha Hb.
  assert (E : flatOr [Or [a; b]; c] = flatOr [a; b; c]).
  { change [a; b; c] with ([a; b] ++ [c]). rewrite flatOr_app.
    by apply flatOr_Or, flatOr_normalized, wf_pair. }
  unfold Or at 1 3. by rewrite E.
Qed.

Lemma And_single n : normalized n = true → And [Some n] = Some n.
Proof.
  intros Hn. unfold And. destruct n; try done. simpl.
  rewrite normalized_and in Hn. apply andb_prop in Hn as [Hlen _].
  rewrite app_nil_r. destruct filters as [|? [|? ?]]; done.
Qed.

Lemma Or_single n : normalized n = true → Or [Some n] = Some n.
Proof.
  intros Hn. unfold Or. destruct n; try done. simpl.
  rewrite normalized_or in Hn. apply andb_prop in Hn as [Hlen _].
  rewrite app_nil_r. destruct filters as [|? [|? ?]]; done.
Qed.

End Construction.

(** ** Properties of the constructors *)

Section Constructors.

Lemma Reachable_wf f : Reachable f → wf f = true.
Proof.
  induction 1 as
    [ | | | | | | | | | | | | | | field f _ IH | field lo hi
    | fs _ IH | fs _ IH | f _ IH ]; try done.
  - by apply And_wf.
  - by apply Or_wf.
  - by apply Not_wf.
Qed.

(** What [normalized] says of one container. *)
Lemma normalized_andFilter fs :
  normalized (andFilter fs) = true →
  2 ≤ length fs ∧
  ∀ c, c ∈ fs → ∃ g, c = Some g ∧ isAnd g = false ∧ normalized g = true.
Proof.
  rewrite normalized_and. intros [Hlen Hall]%andb_prop. split.
  - by apply Nat.leb_le.
  - intros c Hc. rewrite forallb_forall in Hall.
    apply list_elem_of_In, Hall in Hc. destruct c as [g|]; [|done].
    apply andb_prop in Hc as [Hk Hg]. exists g.
    by rewrite negb_true_iff in Hk.
Qed.

Lemma normalized_orFilter fs :
  normalized (orFilter fs) = true →
  2 ≤ length fs ∧
  ∀ c, c ∈ fs → ∃ g, c = Some g ∧ isOr g = false ∧ normalized g = true.
Proof.
  rewrite normalized_or. intros [Hlen Hall]%andb_prop. split.
  - by apply Nat.leb_le.
  - intros c Hc. rewrite forallb_forall in Hall.
    apply list_elem_of_In, Hall in Hc. destruct c as [g|]; [|done].
    apply andb_prop in Hc as [Hk Hg]. exists g.
    by rewrite negb_true_iff in Hk.
Qed.

(** A list of arguments that are neither nil nor a container of the
    same kind goes through the loop as it is. *)
Lemma flatAnd_children xs :
  forallb and_child xs = true → flatAnd xs = xs.
Proof.
  induction xs as [|[g|] xs IH]; [done| |done].
  simpl. intros [Hg Hxs]%andb_prop. apply andb_prop in Hg as [Hk _].
  rewrite (IH Hxs). by destruct g.
Qed.

Lemma flatOr_children xs :
  forallb or_child xs = true → flatOr xs = xs.
Proof.
  induction xs as [|[g|] xs IH]; [done| |done].
  simpl. intros [Hg Hxs]%andb_prop. apply andb_prop in Hg as [Hk _].
  rewrite (IH Hxs). by destruct g.
Qed.

(** Two or more such arguments are put into a container, in order. *)
Lemma And_children xs :
  2 ≤ length xs → forallb and_child xs = true →
  And xs = Some (andFilter xs).
Proof.
  intros Hlen Hxs. unfold And. rewrite (flatAnd_children xs Hxs).
  destruct xs as [|x [|y xs]]; simpl in Hlen; [lia|lia|done].
Qed.

Lemma Or_children xs :
  2 ≤ length xs → forallb or_child xs = true →
  Or xs = Some (orFilter xs).
Proof.
  intros Hlen Hxs. unfold Or. rewrite (flatOr_children xs Hxs).
  destruct xs as [|x [|y xs]]; simpl in Hlen; [lia|lia|done].
Qed.

(** The children of a nested container come first, in their order, and
    the other arguments after them, in one container. *)
Lemma And_nested xs ys :
  2 ≤ length xs → forallb and_child (xs ++ ys) = true →
  And (And xs :: ys) = Some (andFilter (xs ++ ys)).
Proof.
  intros Hlen Hall. pose proof Hall as Hboth.
  rewrite forallb_app in Hboth. apply andb_prop in Hboth as [Hxs Hys].
  rewrite (And_children xs Hlen Hxs). unfold And.
  cbn [flatAnd]. rewrite (flatAnd_children ys Hys).
  destruct xs as [|x [|y xs]]; simpl in Hlen; [lia|lia|done].
Qed.

Lemma Or_nested xs ys :
  2 ≤ length xs → forallb or_child (xs ++ ys) = true →
  Or (Or xs :: ys) = Some (orFilter (xs ++ ys)).
Proof.
  intros Hlen Hall. pose proof Hall as Hboth.
  rewrite forallb_app in Hboth. apply andb_prop in Hboth as [Hxs Hys].
  rewrite (Or_children xs Hlen Hxs). unfold Or.
  cbn [flatOr]. rewrite (flatOr_children ys Hys).
  destruct xs as [|x [|y xs]]; simpl in Hlen; [lia|lia|done].
Qed.

(** C4 (flattening).  For filters [a], [b] that are nil or normalized, and
    any [c], [And(And(a,b), c)] is the very filter [And(a,b,c)], so the two
    compile alike from every store; the same for [Or].  The children of a
    same-kind container argument are spliced in where the argument stood,
    by the constructor: when [a], [b] and [c] are filters other than nil
    and other than an [andFilter], both [And(And(a,b), c)] and
    [And(a,b,c)] are the one container [andFilter] of [a], [b], [c], in
    this order; and for any two or more such filters [xs] and any such
    [ys], [And(And(xs...), ys...)] is the container of [xs] followed by
    [ys].  The same holds of [Or] and [orFilter]. *)
Theorem flattening (a b c : option Filter) :
  wf a = true → wf b = true →
  (And [And [a; b]; c] = And [a; b; c] ∧
   ∀ h, call_ToMongo (And [And [a; b]; c]) h =
        call_ToMongo (And [a; b; c]) h) ∧
  (Or [Or [a; b]; c] = Or [a; b; c] ∧
   ∀ h, call_ToMongo (Or [Or [a; b]; c]) h =
        call_ToMongo (Or [a; b; c]) h) ∧
  (∀ fs rest, flatAnd (Some (andFilter fs) :: rest) = fs ++ flatAnd rest) ∧
  (∀ fs rest, flatOr (Some (orFilter fs) :: rest) = fs ++ flatOr rest) ∧
  (and_child a = true → and_child b = true → and_child c = true →
   And [And [a; b]; c] = Some (andFilter [a; b; c]) ∧
   And [a; b; c] = Some (andFilter [a; b; c])) ∧
  (or_child a = true → or_child b = true → or_child c = true →
   Or [Or [a; b]; c] = Some (orFilter [a; b; c]) ∧
   Or [a; b; c] = Some (orFilter [a; b; c])) ∧
  (∀ xs ys, 2 ≤ length xs → forallb and_child (xs ++ ys) = true →
     And (And xs :: ys) = Some (andFilter (xs ++ ys)) ∧
     And (xs ++ ys) = Some (andFilter (xs ++ ys))) ∧
  (∀ xs ys, 2 ≤ length xs → forallb or_child (xs ++ ys) = true →
     Or (Or xs :: ys) = Some (orFilter (xs ++ ys)) ∧
     Or (xs ++ ys) = Some (orFilter (xs ++ ys))).
Proof.
  intros Ha Hb.
  assert (HA : ∀ xs ys, 2 ≤ length xs →
            forallb and_child (xs ++ ys) = true →
            And (And xs :: ys) = Some (andFilter (xs ++ ys)) ∧
            And (xs ++ ys) = Some (andFilter (xs ++ ys))).
  { intros xs ys Hlen Hall. split; [by apply And_nested|].
    apply And_children; [|done]. rewrite length_app. lia. }
  assert (HO : ∀ xs ys, 2 ≤ length xs →
            forallb or_child (xs ++ ys) = true →
            Or (Or xs :: ys) = Some (orFilter (xs ++ ys)) ∧
            Or (xs ++ ys) = Some (orFilter (xs ++ ys))).
  { intros xs ys Hlen Hall. split; [by apply Or_nested|].
    apply Or_children; [|done]. rewrite length_app. lia. }
  split; [by rewrite (And_assoc_left a b c Ha Hb)|].
  split; [by rewrite (Or_assoc_left a b c Ha Hb)|].
  split; [done|]. split; [done|].
  split; [|split; [|by split]].
  - intros Ca Cb Cc. apply (HA [a; b] [c]); [simpl; lia|].
    simpl. by rewrite Ca, Cb, Cc.
  - intros Ca Cb Cc. apply (HO [a; b] [c]); [simpl; lia|].
    simpl. by rewrite Ca, Cb, Cc.
Qed.

Lemma flattening_witness :
  let a := Eq "a" (VInt 1) in
  let b := And [Eq "b" (VInt 2); Gt "c" (VInt 3)] in
  let c := Or [Eq "d" (VInt 4); Eq "e" (VInt 5)] in
  let b' := Not (Eq "b" (VInt 2)) in
  wf a = true ∧ wf b = true ∧
  And [And [a; b]; c] = And [a; b; c] ∧
  Or [Or [a; b]; c] = Or [a; b; c] ∧
  wf b' = true ∧
  And [And [a; b']; c] = Some (andFilter [a; b'; c]) ∧
  And [a; b'; c] = Some (andFilter [a; b'; c]).
Proof.
  intros a b c b'.
  split; [reflexivity|]. split; [reflexivity|].
  pose proof (flattening a b c eq_refl eq_refl) as [[HA _] [[HO _] _]].
  split; [exact HA|]. split; [exact HO|]. split; [reflexivity|].
  pose proof (flattening a b' c eq_refl eq_refl)
    as (_ & _ & _ & _ & Hpin & _).
  exact (Hpin eq_refl eq_refl eq_refl).
Defined.

(** C5 (singleton collapse).  For every normalized filter [n], [And(n)] and
    [Or(n)] are [n], without a container around it; hence they compile as [n]
    does. *)
Theorem singleton_collapse (n : Filter) :
  normalized n = true →
  And [Some n] = Some n ∧ Or [Some n] = Some n ∧
  (∀ h, call_ToMongo (And [Some n]) h = ToMongo n h) ∧
  (∀ h, call_ToMongo (Or [Some n]) h = ToMongo n h).
Proof.
  intros Hn. rewrite (And_single n Hn), (Or_single n Hn). done.
Qed.

Lemma singleton_collapse_witness :
  let n := andFilter [Eq "a" (VInt 1); Lt "b" (VInt 2)] in
  normalized n = true ∧ And [Some n] = Some n ∧ Or [Some n] = Some n.
Proof.
  intros n. split; [reflexivity|].
  pose proof (singleton_collapse n eq_refl) as (HA & HO & _).
  by split.
Defined.

(** C6 (normalization invariant).  Every filter reachable through the
    exported constructors is nil or normalized: in it and below, every
    [andFilter] and [orFilter] holds at least two children, none nil and
    none a container of the same kind, and no [notFilter] holds nil.  The
    invariant is spelled out for the container at the root; [normalized]
    says the same of the containers below.  It is preserved by each
    constructor ([And_wf], [Or_wf], [Not_wf], [ElemMatch_wf]). *)
Theorem normalization_invariant (f : option Filter) :
  Reachable f →
  wf f = true ∧
  (∀ fs, f = Some (andFilter fs) →
     2 ≤ length fs ∧
     ∀ c, c ∈ fs → ∃ g, c = Some g ∧ isAnd g = false ∧ normalized g = true) ∧
  (∀ fs, f = Some (orFilter fs) →
     2 ≤ length fs ∧
     ∀ c, c ∈ fs → ∃ g, c = Some g ∧ isOr g = false ∧ normalized g = true) ∧
  (∀ c, f = Some (notFilter c) → ∃ g, c = Some g ∧ normalized g = true).
Proof.
  intros R%Reachable_wf. split; [done|]. repeat split.
  - subst f. by apply normalized_andFilter.
  - subst f. by apply normalized_andFilter.
  - subst f. by apply normalized_orFilter.
  - subst f. by apply normalized_orFilter.
  - intros [g|] ->; [by exists g|done].
Qed.

Lemma normalization_invariant_witness :
  let f := And [None; And [Eq "a" (VInt 1); Eq "b" (VInt 2)];
                Not (Or [Eq "c" (VInt 3)])] in
  Reachable f ∧ wf f = true.
Proof.
  intros f.
  assert (R : Reachable f).
  { apply R_And. intros g Hg.
    repeat (apply elem_of_cons in Hg as [->|Hg]).
    - apply R_nil.
    - apply R_And. intros k Hk.
      repeat (apply elem_of_cons in Hk as [->|Hk]).
      + apply R_Eq.
      + apply R_Eq.
      + by apply elem_of_nil in Hk.
    - apply R_Not, R_Or. intros k Hk.
      repeat (apply elem_of_cons in Hk as [->|Hk]).
      + apply R_Eq.
      + by apply elem_of_nil in Hk.
    - by apply elem_of_nil in Hg. }
  split; [exact R|]. exact (proj1 (normalization_invariant f R)).
Defined.

(** Arguments that are no container of the same kind: the loop keeps
    the non-nil ones, in order, and nothing else. *)
Lemma flatAnd_keeps fs :
  (∀ g, Some g ∈ fs → isAnd g = false) → flatAnd fs = filter is_Some fs.
Proof.
  induction fs as [|[g|] fs IH]; intros Hk; [done| |].
  - rewrite filter_cons_True by eauto.
    assert (Hg : isAnd g = false) by (apply Hk; left).
    rewrite <- IH by (intros g' Hg'; apply Hk; by right).
    by destruct g.
  - rewrite filter_cons_False by (intros [? ?]; done).
    apply IH. intros g' Hg'. apply Hk. by right.
Qed.

Lemma flatOr_keeps fs :
  (∀ g, Some g ∈ fs → isOr g = false) → flatOr fs = filter is_Some fs.
Proof.
  induction fs as [|[g|] fs IH]; intros Hk; [done| |].
  - rewrite filter_cons_True by eauto.
    assert (Hg : isOr g = false) by (apply Hk; left).
    rewrite <- IH by (intros g' Hg'; apply Hk; by right).
    by destruct g.
  - rewrite filter_cons_False by (intros [? ?]; done).
    apply IH. intros g' Hg'. apply Hk. by right.
Qed.

(** C7 (nil absorption).  [And] and [Or] drop their nil arguments and
    keep the others: [And(nil, a, nil)] is [And(a)], which for a
    normalized [a] is [a] itself and compiles as [a] does, and
    [And(nil, nil)] is nil.  More generally, on arguments that are no
    [andFilter], [And] returns nil when all are nil, the one non-nil
    argument when there is exactly one, and otherwise the container of
    the non-nil arguments in their order; the same for [Or].  [Combine]
    drops nil arguments too, returns nil when none is left and the
    argument itself when exactly one is left. *)
Theorem nil_absorption :
  (∀ fs, And fs = And (filter is_Some fs)) ∧
  (∀ a, And [None; Some a; None] = And [Some a]) ∧
  (∀ a h, call_ToMongo (And [None; Some a; None]) h =
          call_ToMongo (And [Some a]) h) ∧
  And [None; None] = None ∧
  (∀ fs, Or fs = Or (filter is_Some fs)) ∧
  (∀ a, Or [None; Some a; None] = Or [Some a]) ∧
  (∀ a h, call_ToMongo (Or [None; Some a; None]) h =
          call_ToMongo (Or [Some a]) h) ∧
  Or [None; None] = None ∧
  (∀ us, Combine us = Combine (filter is_Some us)) ∧
  (∀ us, filter is_Some us = [] → Combine us = None) ∧
  (∀ us u, filter is_Some us = [Some u] → Combine us = Some u) ∧
  (∀ a, normalized a = true →
     And [None; Some a; None] = Some a ∧
     Or [None; Some a; None] = Some a ∧
     ∀ h, call_ToMongo (And [None; Some a; None]) h = ToMongo a h ∧
          call_ToMongo (Or [None; Some a; None]) h = ToMongo a h) ∧
  (∀ fs, (∀ g, Some g ∈ fs → isAnd g = false) →
     And fs = match filter is_Some fs with
              | [] => None
              | [a] => a
              | kept => Some (andFilter kept)
              end) ∧
  (∀ fs, (∀ g, Some g ∈ fs → isOr g = false) →
     Or fs = match filter is_Some fs with
             | [] => None
             | [a] => a
             | kept => Some (orFilter kept)
             end) ∧
  (∀ us, Combine us = match filter is_Some us with
                      | [] => None
                      | [u] => u
                      | kept => Some (combinedUpdate kept)
                      end).
Proof.
  assert (HA : ∀ fs, And fs = And (filter is_Some fs))
    by (intros fs; unfold And; by rewrite flatAnd_drop_nil).
  assert (HO : ∀ fs, Or fs = Or (filter is_Some fs))
    by (intros fs; unfold Or; by rewrite flatOr_drop_nil).
  assert (HN : ∀ us, nonNil (filter is_Some us) = nonNil us).
  { intros us. rewrite !nonNil_filter.
    induction us as [|[u|] us IH]; [done| |].
    - rewrite filter_cons_True by eauto.
      rewrite filter_cons_True by eauto. by rewrite IH.
    - by rewrite filter_cons_False by (intros [? ?]; done). }
  assert (HAa : ∀ a, normalized a = true → And [None; Some a; None] = Some a).
  { intros a Hn. etrans; [apply (HA [None; Some a; None])|].
    by apply And_single. }
  assert (HOa : ∀ a, normalized a = true → Or [None; Some a; None] = Some a).
  { intros a Hn. etrans; [apply (HO [None; Some a; None])|].
    by apply Or_single. }
  split; [done|]. split; [done|]. split; [done|]. split; [done|].
  split; [done|]. split; [done|]. split; [done|]. split; [done|].
  split; [intros us; unfold Combine; by rewrite HN|].
  split; [intros us E; unfold Combine; by rewrite nonNil_filter, E|].
  split; [intros us u E; unfold Combine; by rewrite nonNil_filter, E|].
  split; [|split; [|split]].
  - intros a Hn. rewrite (HAa a Hn), (HOa a Hn). done.
  - intros fs Hk. unfold And. rewrite (flatAnd_keeps fs Hk).
    by destruct (filter is_Some fs) as [|? [|? ?]].
  - intros fs Hk. unfold Or. rewrite (flatOr_keeps fs Hk).
    by destruct (filter is_Some fs) as [|? [|? ?]].
  - intros us. unfold Combine. rewrite nonNil_filter.
    by destruct (filter is_Some us) as [|? [|? ?]].
Qed.

Lemma nil_absorption_witness :
  filter is_Some [None; Set' "a" (VInt 1); None] = [Set' "a" (VInt 1)] ∧
  Combine [None; Set' "a" (VInt 1); None] = Set' "a" (VInt 1) ∧
  normalized (eqFilter "a" (VInt 1)) = true ∧
  And [None; Eq "a" (VInt 1); None] = Eq "a" (VInt 1) ∧
  Or [None; Eq "a" (VInt 1); None] = Eq "a" (VInt 1) ∧
  And [None; Eq "a" (VInt 1); None; Gt "b" (VInt 2)] =
    Some (andFilter [Eq "a" (VInt 1); Gt "b" (VInt 2)]).
Proof.
  destruct nil_absorption
    as (_ & _ & _ & _ & _ & _ & _ & _ & _ & _ & H & Hone & Hand & _).
  split; [reflexivity|]. split.
  { apply (H [None; Set' "a" (VInt 1); None] (setUpdate "a" (VInt 1))).
    reflexivity. }
  split; [reflexivity|].
  destruct (Hone (eqFilter "a" (VInt 1)) eq_refl) as (EA & EO & _).
  split; [exact EA|]. split; [exact EO|].
  rewrite (Hand [None; Eq "a" (VInt 1); None; Gt "b" (VInt 2)]).
  - reflexivity.
  - intros g Hg. repeat (apply elem_of_cons in Hg as [Hg|Hg]);
      try done; try (by injection Hg as ->).
    by apply elem_of_nil in Hg.
Defined.

End Constructors.

(** ** Compiling filters *)

Section Filter_compile.

Lemma fresh_in_new_map m (h : heap) : fresh_in h (length h) (h ++ [m]).
Proof.
  split; [by apply prefix_app_r|]. rewrite length_app. simpl. lia.
Qed.

Lemma fresh_in_trans_l h h1 l h' :
  h `prefix_of` h1 → fresh_in h1 l h' → fresh_in h l h'.
Proof.
  intros Hp [Hp' Hl]. split; [by etrans|].
  apply prefix_length in Hp. lia.
Qed.

Lemma parts_of_fresh fs :
  Forall (on_some (λ g, ∀ h l h', ToMongo g h = Done l h' → fresh_in h l h'))
    fs →
  ∀ h ls h', parts_of fs h = Done ls h' →
    h `prefix_of` h' ∧ Forall (λ l, length h ≤ l < length h') ls.
Proof.
  induction 1 as [|c fs Hc _ IH]; intros h ls h' Hrun.
  - injection Hrun as <- <-. done.
  - destruct c as [g|]; simpl in Hrun; [|by apply IH].
    apply bind_Done in Hrun as (l & h1 & Hg & Hrun).
    apply bind_Done in Hrun as (ls' & h2 & Hrest & Hrun).
    injection Hrun as <- <-.
    apply Hc in Hg as [Hp1 Hl]. apply IH in Hrest as [Hp2 Hls].
    split; [by etrans|]. constructor.
    + apply prefix_length in Hp2. lia.
    + eapply Forall_impl; [exact Hls|]. intros x Hx. simpl in Hx.
      apply prefix_length in Hp1. lia.
Qed.

(** A successful [ToMongo] only adds objects to the store and returns one
    of the objects it added. *)
Lemma ToMongo_fresh f h l h' : ToMongo f h = Done l h' → fresh_in h l h'.
Proof.
  revert h l h'. induction f as
    [field v|field op v|field pattern options|field c IH|fs IH|fs IH|c IH]
    using Filter_tree_ind; intros h l h' Hrun.
  - injection Hrun as <- <-. apply fresh_in_new_map.
  - injection Hrun as <- <-. eapply fresh_in_trans_l;
      [|apply fresh_in_new_map]. by apply prefix_app_r.
  - simpl in Hrun. case_decide; injection Hrun as <- <-;
      (eapply fresh_in_trans_l; [|apply fresh_in_new_map]);
      by apply prefix_app_r.
  - destruct c as [g|]; simpl in Hrun.
    + apply bind_Done in Hrun as (sub & h1 & Hg & Hrun).
      injection Hrun as <- <-. apply IH in Hg as [Hp _].
      eapply fresh_in_trans_l; [|apply fresh_in_new_map].
      etrans; [exact Hp|]. by apply prefix_app_r.
    + injection Hrun as <- <-.
      eapply fresh_in_trans_l; [|apply fresh_in_new_map].
      rewrite <- app_assoc. by apply prefix_app_r.
  - rewrite ToMongo_and in Hrun.
    apply bind_Done in Hrun as (parts & h1 & Hparts & Hrun).
    apply (parts_of_fresh _ IH) in Hparts as [Hp Hls].
    destruct parts as [|p [|p' parts]].
    + injection Hrun as <- <-.
      eapply fresh_in_trans_l; [exact Hp|apply fresh_in_new_map].
    + injection Hrun as <- <-. split; [done|].
      by apply Forall_cons in Hls as [? _].
    + injection Hrun as <- <-.
      eapply fresh_in_trans_l; [exact Hp|apply fresh_in_new_map].
  - rewrite ToMongo_or in Hrun.
    apply bind_Done in Hrun as (parts & h1 & Hparts & Hrun).
    apply (parts_of_fresh _ IH) in Hparts as [Hp Hls].
    destruct parts as [|p [|p' parts]].
    + injection Hrun as <- <-.
      eapply fresh_in_trans_l; [exact Hp|apply fresh_in_new_map].
    + injection Hrun as <- <-. split; [done|].
      by apply Forall_cons in Hls as [? _].
    + injection Hrun as <- <-.
      eapply fresh_in_trans_l; [exact Hp|apply fresh_in_new_map].
  - destruct c as [g|]; simpl in Hrun; [|done].
    apply bind_Done in Hrun as (sub & h1 & Hg & Hrun).
    injection Hrun as <- <-. apply IH in Hg as [Hp _].
    eapply fresh_in_trans_l; [exact Hp|apply fresh_in_new_map].
Qed.

Lemma parts_of_total fs :
  Forall (on_some (λ g, normalized g = true →
                        ∀ h, ∃ l h', ToMongo g h = Done l h')) fs →
  Forall (λ c, wf c = true) fs →
  ∀ h, ∃ ls h', parts_of fs h = Done ls h'.
Proof.
  induction 1 as [|c fs Hc _ IH]; intros Hwf h; [by eexists _, _|].
  apply Forall_cons in Hwf as [Hcw Hwf].
  destruct c as [g|]; simpl; [|by apply IH].
  destruct (Hc Hcw h) as (l & h1 & Hg).
  destruct (IH Hwf h1) as (ls & h2 & Hrest).
  exists (l :: ls), h2. rewrite bind_unfold, Hg, bind_unfold, Hrest. done.
Qed.

Lemma children_wf (child : option Filter → bool) fs :
  (∀ c, child c = true → wf c = true) →
  forallb child fs = true → Forall (λ c, wf c = true) fs.
Proof.
  intros Hc Hall. apply Forall_forall. intros c Hin.
  apply Hc. rewrite forallb_forall in Hall.
  by apply Hall, list_elem_of_In.
Qed.

Lemma and_child_wf c : and_child c = true → wf c = true.
Proof. destruct c as [g|]; [|done]. by intros [_ ?]%andb_prop. Qed.

Lemma or_child_wf c : or_child c = true → wf c = true.
Proof. destruct c as [g|]; [|done]. by intros [_ ?]%andb_prop. Qed.

(** Compiling a normalized filter never panics. *)
Lemma ToMongo_total f :
  normalized f = true → ∀ h, ∃ l h', ToMongo f h = Done l h'.
Proof.
  induction f as
    [field v|field op v|field pattern options|field c IH|fs IH|fs IH|c IH]
    using Filter_tree_ind; intros Hn h.
  - by eexists _, _.
  - by eexists _, _.
  - simpl. case_decide; by eexists _, _.
  - destruct c as [g|]; simpl; [|by eexists _, _].
    destruct (IH Hn h) as (l & h1 & Hg).
    rewrite bind_unfold, Hg. by eexists _, _.
  - rewrite normalized_and in Hn. apply andb_prop in Hn as [_ Hn].
    destruct (parts_of_total fs IH
                (children_wf _ _ and_child_wf Hn) h) as (ls & h1 & Hparts).
    rewrite ToMongo_and, bind_unfold, Hparts.
    destruct ls as [|p [|p' ls]]; by eexists _, _.
  - rewrite normalized_or in Hn. apply andb_prop in Hn as [_ Hn].
    destruct (parts_of_total fs IH
                (children_wf _ _ or_child_wf Hn) h) as (ls & h1 & Hparts).
    rewrite ToMongo_or, bind_unfold, Hparts.
    destruct ls as [|p [|p' ls]]; by eexists _, _.
  - destruct c as [g|]; [|done]. simpl.
    destruct (IH Hn h) as (l & h1 & Hg).
    rewrite bind_unfold, Hg. by eexists _, _.
Qed.

End Filter_compile.

(** ** Writing a list of entries into one map object *)

Section Put_all.

Lemma store_unfold l k v (h : heap) m :
  h !! l = Some m → store l k v h = Done tt (<[l := <[k := v]> m]> h).
Proof. intros E. unfold store. by rewrite E. Qed.

Lemma for_each_store l entries : ∀ (h : heap) m,
  h !! l = Some m →
  for_each (λ kv : string * value, store l kv.1 kv.2) entries h =
  Done tt (<[l := put_all entries m]> h).
Proof.
  induction entries as [|[k v] entries IH]; intros h m E; simpl.
  - by rewrite list_insert_id.
  - rewrite bind_unfold, (store_unfold _ _ _ _ _ E).
    rewrite (IH _ (<[k := v]> m)).
    + by rewrite list_insert_insert_eq.
    + apply list_lookup_insert_eq. by eapply lookup_lt_Some.
Qed.

(** Entries with distinct keys: the order of the writes does not matter,
    each entry ends up in the object and the other keys keep their value. *)
Lemma put_all_union entries : ∀ m,
  NoDup entries.*1 →
  put_all entries m = list_to_map entries ∪ m.
Proof.
  induction entries as [|[k v] entries IH]; intros m Hnd.
  - simpl. by rewrite (left_id_L ∅ (∪)).
  - rewrite fmap_cons in Hnd. apply NoDup_cons in Hnd as [Hk Hnd].
    change (put_all ((k, v) :: entries) m)
      with (put_all entries (<[k := v]> m)).
    rewrite (IH _ Hnd), list_to_map_cons, <- insert_union_l.
    symmetry. apply insert_union_r. by apply not_elem_of_list_to_map_1.
Qed.

Lemma put_all_map_to_list (o m : gmap string value) :
  put_all (map_to_list o) m = o ∪ m.
Proof.
  rewrite put_all_union by apply NoDup_fst_map_to_list.
  by rewrite list_to_map_to_list.
Qed.

End Put_all.

(** ** Negation, and the stages of a pipeline *)

Section Stages.

Lemma map_range_deref m (h : heap) o :
  deref h m = Some o → map_range m h = Done (map_to_list o) h.
Proof.
  destruct m as [l|]; simpl.
  - intros E. unfold load. rewrite bind_unfold. by rewrite E.
  - intros [= <-]. by rewrite map_to_list_empty.
Qed.

Lemma deref_app m (h new : heap) o :
  deref h m = Some o → deref (h ++ new) m = Some o.
Proof.
  destruct m as [l|]; simpl; [|done]. intros E.
  rewrite lookup_app_l; [done|]. by eapply lookup_lt_Some.
Qed.

Lemma lookup_new (h : heap) (m : gmap string value) :
  (h ++ [m]) !! length h = Some m.
Proof. by rewrite list_lookup_middle. Qed.

Lemma insert_new (h : heap) (m m' : gmap string value) :
  <[length h := m']> (h ++ [m]) = h ++ [m'].
Proof.
  rewrite insert_app_r_alt by lia. by rewrite Nat.sub_diag.
Qed.

(** C2 (universal negation).  [Not(nil)] is nil.  For a filter [f],
    [Not(f)] is a [notFilter] around [f]; it compiles [f] and returns a
    new map with the single key "$nor", holding the one-element list of
    the compiled [f].  It stops exactly when compiling [f] does, which for
    a normalized [f] is never. *)
Theorem universal_negation :
  Not None = None ∧
  (∀ f, Not (Some f) = Some (notFilter (Some f))) ∧
  (∀ f h,
     call_ToMongo (Not (Some f)) h =
     match ToMongo f h with
     | Done l hf => Done (length hf) (hf ++ [ {["$nor" := VMs [Some l]]} ])
     | Panic e => Panic e
     end) ∧
  (∀ f h, normalized f = true →
     ∃ l hf, ToMongo f h = Done l hf ∧
       call_ToMongo (Not (Some f)) h =
       Done (length hf) (hf ++ [ {["$nor" := VMs [Some l]]} ])).
Proof.
  split; [done|]. split; [done|]. split.
  - intros f h. simpl. rewrite bind_unfold. by destruct (ToMongo f h).
  - intros f h Hn. destruct (ToMongo_total f Hn h) as (l & hf & E).
    exists l, hf. split; [done|]. simpl. by rewrite bind_unfold, E.
Qed.

Lemma universal_negation_witness :
  let f := andFilter [Eq "a" (VInt 1); Gt "b" (VInt 2)] in
  normalized f = true ∧
  call_ToMongo (Not (Some f)) [] =
  Done 4 [ {["a" := VInt 1]}; {["$gt" := VInt 2]};
           {["b" := VM (Some 1)]};
           {["$and" := VMs [Some 0; Some 2]]};
           {["$nor" := VMs [Some 3]]} ].
Proof.
  intros f. split; [reflexivity|].
  destruct universal_negation as (_ & _ & _ & H).
  destruct (H f [] eq_refl) as (l & hf & E & R).
  rewrite R. vm_compute in E. by injection E as <- <-.
Defined.

(** C9 (shape of the unset stage).  With exactly one field, [Unset]
    appends a stage whose "$unset" key holds the field as a string; with
    two or more, one whose "$unset" key holds the list of the fields in
    the order given. *)
Theorem unset_stage_shape (p : Pipeline) (h : heap) :
  (∀ field,
     Pipeline_Unset [field] p h =
     Done {| stages := stages p ++ [Some (length h)] |}
          (h ++ [ {["$unset" := VStr field]} ])) ∧
  (∀ field1 field2 rest,
     Pipeline_Unset (field1 :: field2 :: rest) p h =
     Done {| stages := stages p ++ [Some (length h)] |}
          (h ++ [ {["$unset" := VStrs (field1 :: field2 :: rest)]} ])).
Proof. done. Qed.

(** C10 (GroupBy and the key "_id").  The group specification starts as
    the map with the single key "_id" holding [idExpr]; every accumulator
    entry is then written into it.  So it holds every accumulator entry
    unchanged, an accumulator entry under "_id" replaces [idExpr], and
    "_id" holds [idExpr] only when the accumulators have no such key.  The
    stage appended is the map with the single key "$group" holding that
    specification. *)
Theorem GroupBy_id_overwritten (idExpr : value) (accumulators : option loc)
    (p : Pipeline) (h : heap) (acc : gmap string value) :
  deref h accumulators = Some acc →
  let groupSpec := acc ∪ {["_id" := idExpr]} in
  Pipeline_GroupBy idExpr accumulators p h =
  Done {| stages := stages p ++ [Some (S (length h))] |}
       (h ++ [ groupSpec; {["$group" := VM (Some (length h))]} ]) ∧
  (∀ k v, acc !! k = Some v → groupSpec !! k = Some v) ∧
  (∀ v, acc !! "_id" = Some v → groupSpec !! "_id" = Some v) ∧
  (acc !! "_id" = None → groupSpec !! "_id" = Some idExpr) ∧
  (∀ k, k ≠ "_id" → groupSpec !! k = acc !! k).
Proof.
  intros Hacc groupSpec. split; [|repeat split].
  - unfold Pipeline_GroupBy.
    rewrite bind_unfold, new_map_unfold, bind_unfold.
    rewrite (map_range_deref _ _ acc) by by apply deref_app.
    rewrite bind_unfold.
    rewrite (for_each_store _ _ _ {["_id" := idExpr]}) by apply lookup_new.
    rewrite put_all_map_to_list, insert_new.
    unfold add_stage. rewrite bind_unfold, new_map_unfold.
    rewrite length_app, Nat.add_1_r, <- app_assoc. done.
  - intros k v E. by apply lookup_union_Some_l.
  - intros v E. by apply lookup_union_Some_l.
  - intros E. unfold groupSpec.
    by rewrite lookup_union_r, lookup_singleton_eq.
  - intros k Hk. unfold groupSpec. rewrite lookup_union.
    rewrite lookup_singleton_ne by done. by destruct (acc !! k).
Qed.

Lemma GroupBy_id_overwritten_witness :
  let h := [ <["_id" := VStr "$region"]> {["n" := VInt 1]} ] in
  deref h (Some 0) = Some (<["_id" := VStr "$region"]> {["n" := VInt 1]}) ∧
  Pipeline_GroupBy (VStr "$status") (Some 0) NewPipeline h =
  Done {| stages := [Some 2] |}
       (h ++ [ <["_id" := VStr "$region"]> {["n" := VInt 1]};
               {["$group" := VM (Some 1)]} ]).
Proof.
  intros h. split; [reflexivity|].
  destruct (GroupBy_id_overwritten (VStr "$status") (Some 0) NewPipeline h
              _ eq_refl) as [E _].
  rewrite E. f_equal.
Defined.

End Stages.

(** ** Combine: the merge step *)

Section Merge.

Lemma leaf_parts_compile u op field v :
  leaf_parts u = Some (op, field, v) →
  ToBsonUpdate u = leaf_update op field v.
Proof. destruct u; intros [= <- <- <-]; reflexivity. Qed.

(** Running on a store [h ++ new]: the objects of [new] are addressed from
    [length h] on. *)
Lemma new_map_app m (h new : heap) :
  new_map m (h ++ new) = Done (length h + length new) (h ++ (new ++ [m])).
Proof. by rewrite new_map_unfold, length_app, app_assoc. Qed.

Lemma lookup_app_plus (h new : heap) i : (h ++ new) !! (length h + i) = new !! i.
Proof.
  rewrite lookup_app_r by lia. f_equal. lia.
Qed.

Lemma load_app (h new : heap) i o :
  new !! i = Some o → load (length h + i) (h ++ new) = Done o (h ++ new).
Proof. intros E. unfold load. by rewrite lookup_app_plus, E. Qed.

Lemma leaf_update_app op field v (h new : heap) :
  leaf_update op field v (h ++ new) =
  Done (length h + S (length new))
       (h ++ (new ++ [ {[field := v]};
                       {[op := VM (Some (length h + length new))]} ])).
Proof.
  unfold leaf_update. rewrite bind_unfold, new_map_app, new_map_app.
  rewrite length_app, <- app_assoc. simpl. by rewrite Nat.add_1_r.
Qed.

(** The three cases of the merge of one entry [k, v] into [result]. *)

(** The key is not in [result] yet: the entry is added, the other keys
    stay. *)
Lemma merge_entry_absent result k v (h : heap) r :
  h !! result = Some r → r !! k = None →
  merge_entry result (k, v) h = Done tt (<[result := <[k := v]> r]> h).
Proof.
  intros Hr Hk. unfold merge_entry, map_get, load.
  rewrite !bind_unfold, Hr. simpl. rewrite Hk.
  by apply store_unfold.
Qed.

(** The key is there and one of the two payloads is not a [bson.M]: the
    later payload replaces the earlier. *)
Lemma merge_entry_replace result k v (h : heap) r ex :
  h !! result = Some r → r !! k = Some ex →
  as_M ex = None ∨ as_M v = None →
  merge_entry result (k, v) h = Done tt (<[result := <[k := v]> r]> h).
Proof.
  intros Hr Hk Hno. unfold merge_entry, map_get, load.
  rewrite !bind_unfold, Hr. simpl. rewrite Hk.
  destruct Hno as [-> | Hv]; [by apply store_unfold|].
  destruct (as_M ex); rewrite ?Hv; by apply store_unfold.
Qed.

(** The key is there and both payloads are maps: the entries of the later
    are written into the object of the earlier, field by field; [result]
    keeps pointing to that object. *)
Lemma merge_entry_merge result k (h : heap) r e newMap eo no :
  h !! result = Some r → r !! k = Some (VM (Some e)) →
  h !! e = Some eo → deref h newMap = Some no →
  merge_entry result (k, VM newMap) h = Done tt (<[e := no ∪ eo]> h).
Proof.
  intros Hr Hk He Hn. unfold merge_entry, map_get, load.
  rewrite !bind_unfold, Hr. simpl. rewrite Hk. simpl.
  unfold merge_fields. rewrite bind_unfold, (map_range_deref _ _ _ Hn).
  change (λ fv : string * value, map_assign (Some e) fv.1 fv.2)
    with (λ fv : string * value, store e fv.1 fv.2).
  rewrite (for_each_store _ _ _ _ He). by rewrite put_all_map_to_list.
Qed.

(** In the merged object the later payload wins field by field. *)
Lemma merged_lookup (no eo : gmap string value) field :
  (no ∪ eo) !! field =
  match no !! field with
  | Some v => Some v
  | None => eo !! field
  end.
Proof. rewrite lookup_union. by destruct (no !! field), (eo !! field). Qed.

End Merge.

(** ** Combine: two leaves *)

Section Combine.

Lemma for_each_single {A} (body : A → exec unit) x h :
  for_each body [x] h = body x h.
Proof.
  simpl. rewrite bind_unfold. by destruct (body x h) as [[] ?|].
Qed.

Lemma merge_child_single result compiled (h : heap) k v :
  h !! compiled = Some {[k := v]} →
  merge_child result compiled h = merge_entry result (k, v) h.
Proof.
  intros E. unfold merge_child. rewrite bind_unfold.
  rewrite (map_range_deref (Some compiled) h {[k := v]} E).
  by rewrite map_to_list_singleton, for_each_single.
Qed.

Lemma Combine_two_leaves u1 u2 op1 f1 v1 op2 f2 v2 (h : heap) :
  leaf_parts u1 = Some (op1, f1, v1) →
  leaf_parts u2 = Some (op2, f2, v2) →
  call_ToBsonUpdate (Combine [Some u1; Some u2]) h =
  Done (length h)
    (h ++ if decide (op1 = op2)
          then [ {[op1 := VM (Some (length h + 1))]};
                 <[f2 := v2]> {[f1 := v1]};
                 {[op1 := VM (Some (length h + 1))]};
                 {[f2 := v2]};
                 {[op2 := VM (Some (length h + 3))]} ]
          else [ <[op2 := VM (Some (length h + 3))]>
                   {[op1 := VM (Some (length h + 1))]};
                 {[f1 := v1]};
                 {[op1 := VM (Some (length h + 1))]};
                 {[f2 := v2]};
                 {[op2 := VM (Some (length h + 3))]} ]).
Proof.
  intros L1 L2. rewrite <- (Nat.add_0_r (length h)) at 1.
  change (Combine [Some u1; Some u2])
    with (Some (combinedUpdate [Some u1; Some u2])).
  unfold call_ToBsonUpdate. rewrite ToBsonUpdate_combined.
  rewrite bind_unfold. rewrite <- (app_nil_r h) at 1.
  rewrite new_map_app. simpl length. simpl app at 2.
  rewrite bind_unfold, merge_children_cons, bind_unfold.
  unfold call_ToBsonUpdate at 1.
  rewrite (leaf_parts_compile _ _ _ _ L1), leaf_update_app.
  simpl length. simpl app at 2.
  rewrite bind_unfold.
  rewrite (merge_child_single _ _ _ op1 (VM (Some (length h + 1))))
    by (by rewrite lookup_app_plus).
  rewrite (merge_entry_absent _ _ _ _ ∅)
    by (by rewrite ?lookup_app_plus).
  rewrite insert_app_r. simpl insert. rewrite insert_empty.
  rewrite merge_children_cons, bind_unfold.
  unfold call_ToBsonUpdate.
  rewrite (leaf_parts_compile _ _ _ _ L2), leaf_update_app.
  simpl length. simpl app at 2.
  rewrite bind_unfold.
  rewrite (merge_child_single _ _ _ op2 (VM (Some (length h + 3))))
    by (by rewrite lookup_app_plus).
  case_decide as Hop.
  - subst op2.
    rewrite (merge_entry_merge _ _ _ {[op1 := VM (Some (length h + 1))]}
               (length h + 1) _ {[f1 := v1]} {[f2 := v2]}).
    + rewrite insert_app_r. simpl insert.
      by rewrite <- insert_union_singleton_l.
    + by rewrite lookup_app_plus.
    + by rewrite lookup_singleton_eq.
    + by rewrite lookup_app_plus.
    + simpl. by rewrite lookup_app_plus.
  - rewrite (merge_entry_absent _ _ _ _ {[op1 := VM (Some (length h + 1))]}).
    + by rewrite insert_app_r.
    + by rewrite lookup_app_plus.
    + by rewrite lookup_singleton_ne.
Qed.

(** The merge of a compiled entry into the accumulated result, when the
    payload the result holds under the key is a map object of the store
    or no map at all.  Under a key the result already has, when both
    payloads are map objects, the later payload's fields are written into
    the earlier object, the later value winning on a common field; a key
    the result does not have yet is added next to the others; and when
    one of the two payloads is not a map, the later payload replaces the
    earlier.  For two single-field leaves this gives one payload holding
    both fields (the later value on a common field) under a common
    operator key, and both operator keys side by side otherwise.  The
    earlier payload that is the nil map is left to
    [Combine_merge_nil_payload]. *)
Theorem Combine_merge :
  (∀ result k (h : heap) r e newMap eo no,
     h !! result = Some r → r !! k = Some (VM (Some e)) →
     h !! e = Some eo → deref h newMap = Some no →
     merge_entry result (k, VM newMap) h = Done tt (<[e := no ∪ eo]> h) ∧
     ∀ field, (no ∪ eo) !! field =
              match no !! field with
              | Some v => Some v
              | None => eo !! field
              end) ∧
  (∀ result k v (h : heap) r,
     h !! result = Some r → r !! k = None →
     merge_entry result (k, v) h =
     Done tt (<[result := <[k := v]> r]> h)) ∧
  (∀ result k v (h : heap) r ex,
     h !! result = Some r → r !! k = Some ex →
     as_M ex = None ∨ as_M v = None →
     merge_entry result (k, v) h =
     Done tt (<[result := <[k := v]> r]> h)) ∧
  (∀ u1 u2 op1 f1 v1 op2 f2 v2 (h : heap),
     leaf_parts u1 = Some (op1, f1, v1) →
     leaf_parts u2 = Some (op2, f2, v2) →
     call_ToBsonUpdate (Combine [Some u1; Some u2]) h =
     Done (length h)
       (h ++ if decide (op1 = op2)
             then [ {[op1 := VM (Some (length h + 1))]};
                    <[f2 := v2]> {[f1 := v1]};
                    {[op1 := VM (Some (length h + 1))]};
                    {[f2 := v2]};
                    {[op2 := VM (Some (length h + 3))]} ]
             else [ <[op2 := VM (Some (length h + 3))]>
                      {[op1 := VM (Some (length h + 1))]};
                    {[f1 := v1]};
                    {[op1 := VM (Some (length h + 1))]};
                    {[f2 := v2]};
                    {[op2 := VM (Some (length h + 3))]} ])) ∧
  call_ToBsonUpdate (Combine [Set' "a" (VInt 1); Set' "b" (VInt 2)]) [] =
    Done 0 [ {["$set" := VM (Some 1)]};
             <["b" := VInt 2]> {["a" := VInt 1]};
             {["$set" := VM (Some 1)]}; {["b" := VInt 2]};
             {["$set" := VM (Some 3)]} ] ∧
  call_ToBsonUpdate (Combine [Set' "a" (VInt 1); Set' "a" (VInt 2)]) [] =
    Done 0 [ {["$set" := VM (Some 1)]};
             {["a" := VInt 2]};
             {["$set" := VM (Some 1)]}; {["a" := VInt 2]};
             {["$set" := VM (Some 3)]} ] ∧
  call_ToBsonUpdate (Combine [Set' "a" (VInt 1); Inc "b" (VInt 1)]) [] =
    Done 0 [ <["$inc" := VM (Some 3)]> {["$set" := VM (Some 1)]};
             {["a" := VInt 1]};
             {["$set" := VM (Some 1)]}; {["b" := VInt 1]};
             {["$inc" := VM (Some 3)]} ].
Proof.
  split; [|split; [|split; [|split; [|split; [|split]]]]].
  - intros * Hr Hk He Hn. split.
    + by eapply merge_entry_merge.
    + apply merged_lookup.
  - intros *. apply merge_entry_absent.
  - intros *. apply merge_entry_replace.
  - intros *. apply Combine_two_leaves.
  - vm_compute. reflexivity.
  - vm_compute. reflexivity.
  - vm_compute. reflexivity.
Qed.

Lemma Combine_merge_witness :
  let h : heap := [ {["$set" := VM (Some 1)]};
                    <["b" := VInt 0]> {["a" := VInt 1]};
                    {["b" := VInt 2]} ] in
  merge_entry 0 ("$set", VM (Some 2)) h =
  Done tt [ {["$set" := VM (Some 1)]};
            <["b" := VInt 2]> {["a" := VInt 1]};
            {["b" := VInt 2]} ].
Proof.
  intros h. destruct Combine_merge as (H & _).
  destruct (H 0 "$set" h {["$set" := VM (Some 1)]} 1 (Some 2)
              (<["b" := VInt 0]> {["a" := VInt 1]}) {["b" := VInt 2]}
              eq_refl eq_refl eq_refl eq_refl) as [E _].
  rewrite E. vm_compute. reflexivity.
Defined.

End Combine.

(** ** Totality *)

Section Totality.

(** Every reachable filter compiles, from every store. *)
Lemma Reachable_compiles f g (h : heap) :
  Reachable f → f = Some g → ∃ l h', ToMongo g h = Done l h'.
Proof.
  intros R ->. apply ToMongo_total. exact (Reachable_wf _ R).
Qed.

(** No [notFilter] below a reachable filter holds nil: [Not] returns nil
    itself on nil. *)
Lemma Reachable_Not_inner c : Reachable (Some (notFilter c)) → c ≠ None.
Proof. intros R%Reachable_wf ->. done. Qed.

(** [ElemMatch] with a nil filter compiles to an element match on the
    empty map. *)
Lemma ElemMatch_nil field (h : heap) :
  call_ToMongo (ElemMatch field None) h =
  Done (length h + 2)
       (h ++ [ ∅; {["$elemMatch" := VM (Some (length h))]};
               {[field := VM (Some (length h + 1))]} ]).
Proof.
  unfold ElemMatch, call_ToMongo, ToMongo.
  rewrite bind_unfold. rewrite <- (app_nil_r h) at 1.
  rewrite new_map_app, bind_unfold, new_map_app, new_map_app.
  simpl. by rewrite Nat.add_0_r.
Qed.

(** [Match(nil)] leaves the builder and the store as they are. *)
Lemma Match_nil p (h : heap) : Pipeline_Match None p h = Done p h.
Proof. reflexivity. Qed.

(** [SetFields(nil)] compiles on its own ... *)
Lemma SetFields_nil_alone (h : heap) :
  call_ToBsonUpdate (SetFields None) h =
  Done (length h) (h ++ [ {["$set" := VM None]} ]).
Proof. reflexivity. Qed.

(** C8 (totality), at the input where it fails.  [SetFields(nil)] is a
    leaf whose payload is the nil map.  In a [Combine], a later child
    with the same operator key and a field to merge makes the merge loop
    assign into that nil map, and the compilation panics. *)
Theorem Combine_SetFields_nil_panics field v (h : heap) :
  call_ToBsonUpdate (Combine [SetFields None; Set' field v]) h =
  Panic NilMapWrite.
Proof.
  change (Combine [SetFields None; Set' field v])
    with (Some (combinedUpdate [SetFields None; Set' field v])).
  unfold call_ToBsonUpdate. rewrite ToBsonUpdate_combined, bind_unfold.
  rewrite <- (app_nil_r h) at 1. rewrite new_map_app. simpl length.
  simpl app at 2.
  rewrite bind_unfold, merge_children_cons, bind_unfold.
  change (call_ToBsonUpdate (SetFields None))
    with (new_map {["$set" := VM None]}).
  rewrite new_map_app. simpl length. simpl app at 2. rewrite bind_unfold.
  rewrite (merge_child_single _ _ _ "$set" (VM None))
    by (by rewrite lookup_app_plus).
  rewrite (merge_entry_absent _ _ _ _ ∅) by (by rewrite ?lookup_app_plus).
  rewrite insert_app_r. simpl insert. rewrite insert_empty.
  rewrite merge_children_cons, bind_unfold.
  change (call_ToBsonUpdate (Set' field v))
    with (leaf_update "$set" field v).
  rewrite leaf_update_app. simpl length. simpl app at 2.
  rewrite bind_unfold.
  rewrite (merge_child_single _ _ _ "$set" (VM (Some (length h + 2))))
    by (by rewrite lookup_app_plus).
  unfold merge_entry, map_get. rewrite !bind_unfold.
  rewrite (load_app _ _ 0 {["$set" := VM None]}) by done.
  rewrite mret_unfold, lookup_singleton_eq. cbn [as_M].
  unfold merge_fields. rewrite bind_unfold. unfold map_range.
  rewrite bind_unfold, (load_app _ _ 2 {[field := v]}) by done.
  rewrite mret_unfold, map_to_list_singleton. reflexivity.
Qed.

(** The merge of an entry whose key the result holds with the nil map as
    payload: the nil map passes the type assertion, so the loop over the
    later payload assigns into it, and the first assignment panics.  Only
    a later payload without entries leaves the loop unentered. *)
Lemma merge_entry_nil_payload result k (h : heap) r newMap no :
  h !! result = Some r → r !! k = Some (VM None) →
  deref h newMap = Some no →
  merge_entry result (k, VM newMap) h =
  if decide (no = ∅) then Done tt h else Panic NilMapWrite.
Proof.
  intros Hr Hk Hn. unfold merge_entry, map_get, load.
  rewrite !bind_unfold, Hr. simpl. rewrite Hk. cbn [as_M].
  unfold merge_fields. rewrite bind_unfold, (map_range_deref _ _ _ Hn).
  case_decide as Hno.
  - subst no. by rewrite map_to_list_empty.
  - destruct (map_to_list no) as [|[field v] entries] eqn:E.
    + by apply map_to_list_empty_iff in E.
    + reflexivity.
Qed.

(** C3 (Combine merges left to right), at the input where it fails.  The
    payload of [SetFields(nil)] is the nil map, which is a [bson.M]: a
    later child with the same operator key is merged into it field by
    field.  The claim has the later entries end up under the key; the
    code assigns them into the nil map and panics, for every later
    payload that has an entry.  So [Combine(SetFields(nil),
    SetFields(m))] panics for every map [m] that is not empty, and
    returns only for an empty [m], with the nil map still under the
    key. *)
Theorem Combine_merge_nil_payload :
  (∀ result k (h : heap) r newMap no,
     h !! result = Some r → r !! k = Some (VM None) →
     deref h newMap = Some no →
     merge_entry result (k, VM newMap) h =
     if decide (no = ∅) then Done tt h else Panic NilMapWrite) ∧
  (∀ (h : heap) fields m,
     h !! fields = Some m →
     call_ToBsonUpdate
       (Combine [SetFields None; SetFields (Some fields)]) h =
     if decide (m = ∅)
     then Done (length h)
            (h ++ [ {["$set" := VM None]}; {["$set" := VM None]};
                    {["$set" := VM (Some fields)]} ])
     else Panic NilMapWrite).
Proof.
  split; [intros *; apply merge_entry_nil_payload|].
  intros h fields m Hm.
  change (Combine [SetFields None; SetFields (Some fields)])
    with (Some (combinedUpdate [SetFields None; SetFields (Some fields)])).
  unfold call_ToBsonUpdate. rewrite ToBsonUpdate_combined, bind_unfold.
  rewrite <- (app_nil_r h) at 1. rewrite new_map_app. simpl length.
  simpl app at 2.
  rewrite bind_unfold, merge_children_cons, bind_unfold.
  change (call_ToBsonUpdate (SetFields None))
    with (new_map {["$set" := VM None]}).
  rewrite new_map_app. simpl length. simpl app at 2. rewrite bind_unfold.
  rewrite (merge_child_single _ _ _ "$set" (VM None))
    by (by rewrite lookup_app_plus).
  rewrite (merge_entry_absent _ _ _ _ ∅) by (by rewrite ?lookup_app_plus).
  rewrite insert_app_r. simpl insert. rewrite insert_empty.
  rewrite merge_children_cons, bind_unfold.
  change (call_ToBsonUpdate (SetFields (Some fields)))
    with (new_map {["$set" := VM (Some fields)]}).
  rewrite new_map_app. simpl length. simpl app at 2. rewrite bind_unfold.
  rewrite (merge_child_single _ _ _ "$set" (VM (Some fields)))
    by (by rewrite lookup_app_plus).
  rewrite (merge_entry_nil_payload _ _ _ {["$set" := VM None]} _ m).
  - case_decide; [|done]. simpl. by rewrite Nat.add_0_r.
  - by rewrite lookup_app_plus.
  - by rewrite lookup_singleton_eq.
  - simpl. rewrite lookup_app_l; [done|]. by eapply lookup_lt_Some.
Qed.

Lemma Combine_merge_nil_payload_witness :
  let h : heap := [ {["a" := VInt 1]} ] in
  h !! 0 = Some {["a" := VInt 1]} ∧
  call_ToBsonUpdate (Combine [SetFields None; SetFields (Some 0)]) h =
  Panic NilMapWrite.
Proof.
  intros h. split; [reflexivity|].
  destruct Combine_merge_nil_payload as [_ H].
  specialize (H h 0 {["a" := VInt 1]} eq_refl).
  rewrite decide_False in H; [exact H|].
  apply map_non_empty_singleton.
Defined.

End Totality.

(** ** Compiling updates that hold no field map of their own *)

Section Update_compile.

Lemma prefix_insert_ge (t s : heap) i x :
  t `prefix_of` s → length t ≤ i → t `prefix_of` <[i := x]> s.
Proof.
  intros [k ->] Hi. rewrite insert_app_r_alt by done. by apply prefix_app_r.
Qed.

Lemma prefix_lookup_Some' (t s : heap) i x :
  t `prefix_of` s → t !! i = Some x → s !! i = Some x.
Proof. intros [k ->] E. by apply lookup_app_l_Some. Qed.

Lemma payloads_mono lo lo' (t t' : heap) o :
  lo' ≤ lo → length t ≤ length t' → payloads lo t o → payloads lo' t' o.
Proof.
  intros Hlo Hlen Hp k v E. destruct (Hp k v E) as (e & -> & He).
  exists e. split; [done|lia].
Qed.

(** The two cases of the merge of an entry whose payload is a new map. *)
Lemma merge_entry_cases t s k e' :
  merging t s → S (length t) ≤ e' < length s →
  ∃ r, s !! length t = Some r ∧ payloads (S (length t)) s r ∧
    ((r !! k = None ∧
      merge_entry (length t) (k, VM (Some e')) s =
      Done tt (<[length t := <[k := VM (Some e')]> r]> s)) ∨
     (∃ e eo no,
        r !! k = Some (VM (Some e)) ∧ S (length t) ≤ e < length s ∧
        s !! e = Some eo ∧ s !! e' = Some no ∧
        merge_entry (length t) (k, VM (Some e')) s =
        Done tt (<[e := no ∪ eo]> s))).
Proof.
  intros (Hp & r & Hr & Hpay) He'. exists r. split; [done|]. split; [done|].
  destruct (r !! k) as [v|] eqn:Hk.
  - right. destruct (Hpay k v Hk) as (e & -> & He).
    destruct (lookup_lt_is_Some_2 s e) as [eo Heo]; [lia|].
    destruct (lookup_lt_is_Some_2 s e') as [no Hno]; [lia|].
    exists e, eo, no. repeat split; try done; try lia.
    by apply (merge_entry_merge _ _ _ r).
  - left. split; [done|]. by apply merge_entry_absent.
Qed.

Lemma merge_entry_merging t s k e' s' :
  merging t s → S (length t) ≤ e' < length s →
  merge_entry (length t) (k, VM (Some e')) s = Done tt s' →
  merging t s' ∧ length s' = length s.
Proof.
  intros Hm He' Hrun.
  destruct (merge_entry_cases t s k e' Hm He')
    as (r & Hr & Hpay & [[Hk E]|(e & eo & no & Hk & He & Heo & Hno & E)]);
    rewrite E in Hrun; injection Hrun as <-; destruct Hm as (Hp & _).
  - rewrite length_insert. split; [|done]. split.
    + by apply prefix_insert_ge.
    + exists (<[k := VM (Some e')]> r). split.
      * apply list_lookup_insert_eq. by eapply lookup_lt_Some.
      * intros k' v. rewrite lookup_insert. case_decide as Hkk.
        -- intros [= <-]. exists e'. split; [done|]. rewrite length_insert. lia.
        -- intros Hv. destruct (Hpay k' v Hv) as (e & -> & He).
           exists e. split; [done|]. rewrite length_insert. lia.
  - rewrite length_insert. split; [|done]. split.
    + apply prefix_insert_ge; [done|lia].
    + exists r. split.
      * rewrite list_lookup_insert_ne by lia. done.
      * intros k' v Hv. destruct (Hpay k' v Hv) as (e0 & -> & He0).
        exists e0. split; [done|]. rewrite length_insert. lia.
Qed.

Lemma payloads_entries lo (t : heap) o :
  payloads lo t o → payload_entries lo (length t) (map_to_list o).
Proof.
  intros Hp. apply Forall_forall. intros [k v] Hin.
  apply elem_of_map_to_list in Hin. exact (Hp k v Hin).
Qed.

Lemma for_each_merging t entries : ∀ s s',
  merging t s → payload_entries (S (length t)) (length s) entries →
  for_each (merge_entry (length t)) entries s = Done tt s' →
  merging t s' ∧ length s' = length s.
Proof.
  induction entries as [|[k v] entries IH]; intros s s' Hm Hent Hrun.
  - by injection Hrun as <-.
  - apply Forall_cons in Hent as [(e' & Hv & He') Hent]. simpl in Hv.
    subst v. change (for_each (merge_entry (length t))
                       ((k, VM (Some e')) :: entries) s)
      with ((merge_entry (length t) (k, VM (Some e'));;
             for_each (merge_entry (length t)) entries) s) in Hrun.
    apply bind_Done in Hrun as ([] & s1 & Hone & Hrest).
    destruct (merge_entry_merging _ _ _ _ _ Hm He' Hone) as [Hm1 Hl1].
    rewrite <- Hl1 in Hent.
    destruct (IH _ _ Hm1 Hent Hrest) as [Hm' Hl']. split; [done|lia].
Qed.

Lemma merging_lt t s : merging t s → length t < length s.
Proof. intros (_ & r & Hr & _). by eapply lookup_lt_Some. Qed.

Lemma merging_prefix t s s1 :
  merging t s → s `prefix_of` s1 → merging t s1.
Proof.
  intros (Hp & r & Hr & Hpay) Hp1. split; [by etrans|].
  exists r. split; [by eapply prefix_lookup_Some'|].
  eapply payloads_mono; [done| |exact Hpay]. by apply prefix_length.
Qed.

Lemma merge_child_merging t s c co s' :
  merging t s → s !! c = Some co → payloads (S (length t)) s co →
  merge_child (length t) c s = Done tt s' →
  merging t s' ∧ length s' = length s.
Proof.
  intros Hm Hc Hpay Hrun. unfold merge_child in Hrun.
  rewrite bind_unfold, (map_range_deref (Some c) s co Hc) in Hrun.
  eapply for_each_merging; [done| |exact Hrun].
  by apply payloads_entries.
Qed.

Lemma merge_children_merging t us :
  Forall (on_some compiles_fresh) us →
  ∀ s s', merging t s →
    merge_children (length t) us s = Done tt s' →
    merging t s'.
Proof.
  induction 1 as [|c us Hc _ IH]; intros s s' Hm Hrun.
  - by injection Hrun as <-.
  - rewrite merge_children_cons in Hrun.
    apply bind_Done in Hrun as (l & s1 & Hcomp & Hrun).
    apply bind_Done in Hrun as ([] & s2 & Hmerge & Hrest).
    destruct c as [g|]; [|done]. simpl in Hcomp.
    destruct (Hc _ _ _ Hcomp) as ([Hp1 Hl] & co & Hco & Hpay).
    pose proof (merging_lt _ _ Hm) as Hlt.
    destruct (merge_child_merging t s1 l co s2) as [Hm2 _]; try done.
    + by eapply merging_prefix.
    + eapply payloads_mono; [|done|exact Hpay]. lia.
    + by eapply IH.
Qed.

Lemma leaf_update_fresh op field v (h : heap) l h' :
  leaf_update op field v h = Done l h' →
  fresh_in h l h' ∧ ∃ o, h' !! l = Some o ∧ payloads (length h) h' o.
Proof.
  rewrite <- (app_nil_r h) at 1. rewrite leaf_update_app.
  intros [= <- <-]. simpl. split.
  - split; [by apply prefix_app_r|]. rewrite length_app. simpl. lia.
  - exists {[op := VM (Some (length h + 0))]}. split.
    + by rewrite (lookup_app_plus h _ 1).
    + intros k w [_ <-]%lookup_singleton_Some. exists (length h + 0).
      split; [done|]. rewrite length_app. simpl. lia.
Qed.

(** An update tree without [SetFields] compiles into new objects only. *)
Lemma ToBsonUpdate_fresh u : no_SetFields u = true → compiles_fresh u.
Proof.
  induction u as [u Hleaf|us IH] using Update_tree_ind; intros Hno.
  - destruct u; try done; intros h l h' Hrun;
      by eapply leaf_update_fresh.
  - intros h l h' Hrun. rewrite ToBsonUpdate_combined in Hrun.
    apply bind_Done in Hrun as (result & s0 & Halloc & Hrun).
    rewrite new_map_unfold in Halloc. injection Halloc as <- <-.
    apply bind_Done in Hrun as ([] & s' & Hloop & Hret).
    injection Hret as <- <-.
    assert (Hm0 : merging h (h ++ [∅])).
    { split; [by apply prefix_app_r|]. exists ∅.
      split; [apply lookup_new|]. by intros k v ?. }
    assert (Hfresh : Forall (on_some compiles_fresh) us).
    { simpl in Hno. rewrite forallb_forall in Hno.
      rewrite Forall_forall in IH |- *. intros [g|] Hin; [|done].
      apply (IH _ Hin). by apply (Hno (Some g)), list_elem_of_In. }
    pose proof (merge_children_merging h us Hfresh _ _ Hm0 Hloop)
      as Hm.
    pose proof (merging_lt _ _ Hm) as Hlt.
    destruct Hm as (Hp & r & Hr & Hpay). split; [by split|].
    exists r. split; [done|]. eapply payloads_mono; [|done|exact Hpay]. lia.
Qed.

End Update_compile.

(** ** Relocation: compiling from a longer store *)

Section Shift.

Lemma shift_loc_below n d l : l < n → shift_loc n d l = l.
Proof. intros H. unfold shift_loc. case_decide; [lia|done]. Qed.

Lemma shift_loc_above n d l : n ≤ l → shift_loc n d l = l + d.
Proof. intros H. unfold shift_loc. case_decide; [done|lia]. Qed.

Lemma shift_M_below n d m : below_M n m = true → shift_M n d m = m.
Proof.
  destruct m as [l|]; [|done]. simpl. intros H%bool_decide_eq_true.
  by rewrite shift_loc_below.
Qed.

Lemma shift_below n d v : below n v = true → shift n d v = v.
Proof.
  induction v as [v Hv|vs IH] using value_tree_ind.
  - destruct v; try done; simpl; intros H.
    + by rewrite shift_M_below.
    + f_equal. induction ms as [|m ms IHms]; [done|].
      simpl in H. apply andb_prop in H as [Hm Hms].
      rewrite fmap_cons, shift_M_below by done. f_equal. by apply IHms.
  - simpl. intros H. f_equal.
    induction IH as [|x vs Hx _ IHvs]; [done|].
    simpl in H. apply andb_prop in H as [Hxb Hvs].
    rewrite fmap_cons, Hx by done. f_equal. by apply IHvs.
Qed.

End Shift.

Lemma parts_of_fresh_all fs (h : heap) ls h' :
  parts_of fs h = Done ls h' →
  h `prefix_of` h' ∧ Forall (λ l, length h ≤ l < length h') ls.
Proof.
  apply parts_of_fresh. apply Forall_forall. intros [g|] _; [|done].
  intros ? ? ?. apply ToMongo_fresh.
Qed.

Section Relocation.

Variables (n d : nat) (h1 h2 : heap).
Hypothesis Hn : n ≤ length h1.
Hypothesis Hlen : length h2 = length h1 + d.

Abbreviation T := (relocate n d (length h1) h2).
Abbreviation sho := (shift_obj n d).
Abbreviation relocates := (relocates n d h1 h2).

Lemma relocate_length t : h1 `prefix_of` t → length (T t) = length t + d.
Proof.
  intros Hp%prefix_length. unfold relocate.
  rewrite length_app, length_fmap, length_drop. lia.
Qed.

Lemma relocate_app t m :
  h1 `prefix_of` t → T (t ++ [m]) = T t ++ [sho m].
Proof.
  intros Hp%prefix_length. unfold relocate.
  rewrite drop_app_le by done. by rewrite fmap_app, app_assoc.
Qed.

Lemma relocate_lookup t e :
  length h1 ≤ e → T t !! (e + d) = sho <$> (t !! e).
Proof.
  intros He. unfold relocate. rewrite lookup_app_r by lia.
  rewrite list_lookup_fmap, lookup_drop. do 2 f_equal. lia.
Qed.

Lemma relocate_insert t e o :
  length h1 ≤ e → T (<[e := o]> t) = <[e + d := sho o]> (T t).
Proof.
  intros He. unfold relocate. rewrite insert_app_r_alt by lia.
  rewrite drop_insert_ge by done. rewrite list_fmap_insert.
  do 2 f_equal. lia.
Qed.

Lemma relocate_base : T h1 = h2.
Proof. unfold relocate. by rewrite drop_all, app_nil_r. Qed.

Lemma relocate_ext new : T (h1 ++ new) = h2 ++ (sho <$> new).
Proof. unfold relocate. by rewrite drop_app_length. Qed.

Lemma new_map_relocate t m m' :
  h1 `prefix_of` t → sho m = m' →
  new_map m' (T t) = Done (length t + d) (T (t ++ [m])).
Proof.
  intros Hp <-. by rewrite new_map_unfold, relocate_length, relocate_app.
Qed.

Lemma prefix_snoc t (m : gmap string value) :
  h1 `prefix_of` t → h1 `prefix_of` t ++ [m].
Proof. intros Hp. etrans; [exact Hp|]. by apply prefix_app_r. Qed.

Lemma shift_fresh t : h1 `prefix_of` t →
  shift n d (VM (Some (length t))) = VM (Some (length t + d)).
Proof.
  intros Hp%prefix_length. simpl. rewrite shift_loc_above by lia. done.
Qed.

Lemma sho_singleton k v : sho {[k := v]} = {[k := shift n d v]}.
Proof. apply map_fmap_singleton. Qed.

Lemma sho_insert k v o : sho (<[k := v]> o) = <[k := shift n d v]> (sho o).
Proof. apply fmap_insert. Qed.

Lemma sho_empty : sho ∅ = ∅.
Proof. apply fmap_empty. Qed.

Lemma sho_singleton_below k v :
  below n v = true → sho {[k := v]} = {[k := v]}.
Proof. intros H. by rewrite sho_singleton, shift_below. Qed.

(** Two constructions in a row: a new object, then a new one-key object
    that refers to it. *)
Lemma wrap_relocate t m m' k :
  h1 `prefix_of` t → sho m = m' →
  (inner ← new_map m'; new_map {[k := VM (Some inner)]}) (T t) =
  Done (length t + 1 + d)
       (T (t ++ [m] ++ [ {[k := VM (Some (length t))]} ])).
Proof.
  intros Hp <-. rewrite bind_unfold.
  rewrite (new_map_relocate t m) by done.
  rewrite (new_map_relocate (t ++ [m]) {[k := VM (Some (length t))]});
    [|by apply prefix_snoc|by rewrite sho_singleton, shift_fresh].
  by rewrite length_app, app_assoc.
Qed.

Lemma wrap_run t m k :
  (inner ← new_map m; new_map {[k := VM (Some inner)]}) t =
  Done (length t + 1) (t ++ [m] ++ [ {[k := VM (Some (length t))]} ]).
Proof.
  rewrite bind_unfold, !new_map_unfold, length_app. by rewrite app_assoc.
Qed.

Lemma parts_of_relocate fs :
  Forall (on_some (λ g, Filter_below n g = true →
    ∀ t l t', h1 `prefix_of` t → ToMongo g t = Done l t' →
      ToMongo g (T t) = Done (l + d) (T t'))) fs →
  forallb (λ c, match c with
                | Some g => Filter_below n g
                | None => true
                end) fs = true →
  ∀ t ls t', h1 `prefix_of` t → parts_of fs t = Done ls t' →
    parts_of fs (T t) = Done ((λ l, l + d) <$> ls) (T t').
Proof.
  induction 1 as [|c fs Hc _ IH]; intros Hb t ls t' Hp Hrun.
  - by injection Hrun as <- <-.
  - simpl in Hb. apply andb_prop in Hb as [Hcb Hb].
    destruct c as [g|]; simpl in Hrun |- *; [|by apply IH].
    apply bind_Done in Hrun as (l & t1 & Hg & Hrun).
    apply bind_Done in Hrun as (ls' & t2 & Hrest & Hrun).
    injection Hrun as <- <-.
    pose proof (ToMongo_fresh _ _ _ _ Hg) as [Hp1 _].
    rewrite bind_unfold, (Hc Hcb _ _ _ Hp Hg).
    rewrite bind_unfold, (IH Hb _ _ _ (transitivity Hp Hp1) Hrest).
    done.
Qed.

Lemma container_relocate key t parts t' l t'' :
  h1 `prefix_of` t' →
  Forall (λ p, length t ≤ p < length t') parts →
  h1 `prefix_of` t →
  match parts with
  | [p] => mret p
  | _ => new_map {[key := VMs (Some <$> parts)]}
  end t' = Done l t'' →
  match (λ l, l + d) <$> parts with
  | [p] => mret p
  | _ => new_map {[key := VMs (Some <$> ((λ l, l + d) <$> parts))]}
  end (T t') = Done (l + d) (T t'').
Proof.
  intros Hp' Hfresh Hp Hrun.
  assert (Hsh : shift_M n d <$> (Some <$> parts) =
                Some <$> ((λ l, l + d) <$> parts)).
  { apply prefix_length in Hp. clear Hrun.
    induction Hfresh as [|p parts Hpb _ IHp]; [done|].
    rewrite !fmap_cons, IHp. simpl. by rewrite shift_loc_above by lia. }
  destruct parts as [|p [|p' parts]].
  - injection Hrun as <- <-. rewrite fmap_nil.
    apply new_map_relocate; [done|]. by rewrite sho_singleton.
  - by injection Hrun as <- <-.
  - injection Hrun as <- <-. rewrite !(fmap_cons (λ l, l + d)).
    apply new_map_relocate; [done|]. rewrite sho_singleton.
    exact (f_equal (λ x, {[key := VMs x]}) Hsh).
Qed.

(** Compiling a filter whose values refer below [n] from the relocated
    store gives the relocated result. *)
Lemma ToMongo_relocate f :
  Filter_below n f = true →
  ∀ t l t', h1 `prefix_of` t → ToMongo f t = Done l t' →
    ToMongo f (T t) = Done (l + d) (T t').
Proof.
  induction f as
    [field v|field op v|field pattern options|field c IH|fs IH|fs IH|c IH]
    using Filter_tree_ind; intros Hb t l t' Hp Hrun.
  - injection Hrun as <- <-. simpl in Hb.
    apply new_map_relocate; [done|]. by apply sho_singleton_below.
  - simpl in Hb, Hrun. rewrite wrap_run in Hrun. injection Hrun as <- <-.
    apply wrap_relocate; [done|]. by apply sho_singleton_below.
  - simpl in Hrun |- *. case_decide.
    + rewrite wrap_run in Hrun. injection Hrun as <- <-.
      apply wrap_relocate; [done|]. by apply sho_singleton_below.
    + rewrite wrap_run in Hrun. injection Hrun as <- <-.
      apply wrap_relocate; [done|]. by rewrite sho_insert, sho_singleton.
  - destruct c as [g|]; simpl in Hb, Hrun |- *.
    + apply bind_Done in Hrun as (sub & t1 & Hg & Hrun).
      rewrite wrap_run in Hrun. injection Hrun as <- <-.
      pose proof (ToMongo_fresh _ _ _ _ Hg) as [Hp1 [Hsub _]].
      rewrite bind_unfold, (IH Hb _ _ _ Hp Hg).
      apply wrap_relocate; [by etrans|]. rewrite sho_singleton. simpl.
      apply prefix_length in Hp. by rewrite shift_loc_above by lia.
    + rewrite bind_unfold, new_map_unfold in Hrun.
      rewrite wrap_run in Hrun. injection Hrun as <- <-.
      rewrite bind_unfold.
      rewrite (new_map_relocate t ∅) by (by rewrite ?sho_empty).
      rewrite (wrap_relocate (t ++ [∅])
                 {["$elemMatch" := VM (Some (length t))]});
        [|by apply prefix_snoc|by rewrite sho_singleton, shift_fresh].
      rewrite !length_app. simpl. by rewrite <- !app_assoc.
  - rewrite ToMongo_and in Hrun |- *. simpl in Hb.
    apply bind_Done in Hrun as (parts & t1 & Hparts & Hrun).
    pose proof (parts_of_fresh_all _ _ _ _ Hparts) as [Hp1 Hfresh].
    rewrite bind_unfold, (parts_of_relocate fs IH Hb _ _ _ Hp Hparts).
    eapply container_relocate; [by etrans|exact Hfresh|done|exact Hrun].
  - rewrite ToMongo_or in Hrun |- *. simpl in Hb.
    apply bind_Done in Hrun as (parts & t1 & Hparts & Hrun).
    pose proof (parts_of_fresh_all _ _ _ _ Hparts) as [Hp1 Hfresh].
    rewrite bind_unfold, (parts_of_relocate fs IH Hb _ _ _ Hp Hparts).
    eapply container_relocate; [by etrans|exact Hfresh|done|exact Hrun].
  - destruct c as [g|]; simpl in Hb, Hrun |- *; [|done].
    apply bind_Done in Hrun as (sub & t1 & Hg & Hrun).
    injection Hrun as <- <-.
    pose proof (ToMongo_fresh _ _ _ _ Hg) as [Hp1 [Hsub _]].
    rewrite bind_unfold, (IH Hb _ _ _ Hp Hg).
    apply new_map_relocate; [by etrans|]. rewrite sho_singleton. simpl.
    apply prefix_length in Hp. by rewrite shift_loc_above by lia.
Qed.

Lemma relocate_lookup_Some s e o :
  length h1 ≤ e → s !! e = Some o → T s !! (e + d) = Some (sho o).
Proof.
  intros He E. rewrite relocate_lookup by done.
  by rewrite E.
Qed.

Lemma shift_ref e : n ≤ e → shift n d (VM (Some e)) = VM (Some (e + d)).
Proof. intros He. simpl. by rewrite shift_loc_above. Qed.

Lemma merge_entry_relocate t s k e' s' :
  h1 `prefix_of` t → merging t s → S (length t) ≤ e' < length s →
  merge_entry (length t) (k, VM (Some e')) s = Done tt s' →
  merge_entry (length t + d) (k, VM (Some (e' + d))) (T s) = Done tt (T s').
Proof.
  intros Hp Hm He' Hrun. pose proof (prefix_length _ _ Hp) as Hlt.
  destruct (merge_entry_cases t s k e' Hm He')
    as (r & Hr & Hpay & [[Hk E]|(e & eo & no & Hk & He & Heo & Hno & E)]);
    rewrite E in Hrun; injection Hrun as <-.
  - rewrite (merge_entry_absent _ _ _ _ (sho r)).
    + rewrite relocate_insert by lia.
      unfold shift_obj at 2. rewrite fmap_insert.
      by rewrite shift_ref by lia.
    + apply relocate_lookup_Some; [lia|done].
    + unfold shift_obj. by rewrite lookup_fmap, Hk.
  - rewrite (merge_entry_merge _ _ _ (sho r) (e + d) _ (sho eo) (sho no)).
    + rewrite relocate_insert by lia.
      unfold shift_obj. by rewrite map_fmap_union.
    + apply relocate_lookup_Some; [lia|done].
    + unfold shift_obj. rewrite lookup_fmap, Hk. simpl.
      by rewrite shift_loc_above by lia.
    + apply relocate_lookup_Some; [lia|done].
    + simpl. apply relocate_lookup_Some; [lia|done].
Qed.

Lemma for_each_relocate t entries : ∀ s s',
  h1 `prefix_of` t → merging t s →
  payload_entries (S (length t)) (length s) entries →
  for_each (merge_entry (length t)) entries s = Done tt s' →
  for_each (merge_entry (length t + d))
    (prod_map id (shift n d) <$> entries) (T s) = Done tt (T s').
Proof.
  induction entries as [|[k v] entries IH]; intros s s' Hp Hm Hent Hrun.
  - by injection Hrun as <-.
  - apply Forall_cons in Hent as [(e' & Hv & He') Hent]. simpl in Hv.
    subst v. change (for_each (merge_entry (length t))
                       ((k, VM (Some e')) :: entries) s)
      with ((merge_entry (length t) (k, VM (Some e'));;
             for_each (merge_entry (length t)) entries) s) in Hrun.
    apply bind_Done in Hrun as ([] & s1 & Hone & Hrest).
    destruct (merge_entry_merging _ _ _ _ _ Hm He' Hone) as [Hm1 Hl1].
    rewrite <- Hl1 in Hent. rewrite fmap_cons.
    change (prod_map id (shift n d) (k, VM (Some e')))
      with (k, shift n d (VM (Some e'))).
    apply prefix_length in Hp as Hlt.
    rewrite shift_ref by lia.
    change (for_each ?body (?x :: ?xs) ?st)
      with ((body x;; for_each body xs) st).
    rewrite bind_unfold, (merge_entry_relocate _ _ _ _ _ Hp Hm He' Hone).
    by apply IH.
Qed.

Lemma merge_child_relocate t s c co s' :
  h1 `prefix_of` t → merging t s →
  length h1 ≤ c → s !! c = Some co → payloads (S (length t)) s co →
  merge_child (length t) c s = Done tt s' →
  merge_child (length t + d) (c + d) (T s) = Done tt (T s').
Proof.
  intros Hp Hm Hc Hco Hpay Hrun. unfold merge_child in Hrun |- *.
  rewrite bind_unfold, (map_range_deref (@Some loc c) s co Hco) in Hrun.
  rewrite bind_unfold,
    (map_range_deref (@Some loc (c + d)) (T s) (sho co))
    by (by apply relocate_lookup_Some).
  unfold shift_obj. rewrite map_to_list_fmap.
  eapply for_each_relocate; [done|done| |exact Hrun].
  by apply payloads_entries.
Qed.

Lemma merge_children_relocate t us :
  Forall (on_some compiles_fresh) us →
  Forall (on_some relocates) us →
  forallb (λ c, match c with
                | Some g => Update_below n g
                | None => true
                end) us = true →
  h1 `prefix_of` t →
  ∀ s s', merging t s →
    merge_children (length t) us s = Done tt s' →
    merge_children (length t + d) us (T s) = Done tt (T s').
Proof.
  intros Hfresh. induction Hfresh as [|c us Hc Hfresh IH];
    intros Hrel Hb Hp s s' Hm Hrun.
  - by injection Hrun as <-.
  - apply Forall_cons in Hrel as [Hcr Hrel]. simpl in Hb.
    apply andb_prop in Hb as [Hcb Hb].
    rewrite merge_children_cons in Hrun |- *.
    apply bind_Done in Hrun as (l & s1 & Hcomp & Hrun).
    apply bind_Done in Hrun as ([] & s2 & Hmerge & Hrest).
    destruct c as [g|]; [|done]. simpl in Hcomp.
    destruct (Hc _ _ _ Hcomp) as ([Hp1 Hl] & co & Hco & Hpay).
    pose proof (merging_lt _ _ Hm) as Hlt.
    pose proof (prefix_length _ _ Hp) as Hlt1.
    assert (Hps : h1 `prefix_of` s) by (destruct Hm; by etrans).
    assert (Hm1 : merging t s1) by (by eapply merging_prefix).
    assert (Hpay1 : payloads (S (length t)) s1 co)
      by (eapply payloads_mono; [|done|exact Hpay]; lia).
    destruct (merge_child_merging t s1 l co s2) as [Hm2 _]; try done.
    rewrite bind_unfold. simpl call_ToBsonUpdate.
    rewrite (Hcr Hcb _ _ _ Hps Hcomp). rewrite bind_unfold.
    rewrite (merge_child_relocate t s1 l co s2); try done; [|lia].
    by apply IH.
Qed.

(** Compiling an update tree without [SetFields] whose values refer below
    [n] from the relocated store gives the relocated result. *)
Lemma ToBsonUpdate_relocate u : no_SetFields u = true → relocates u.
Proof.
  induction u as [u Hleaf|us IH] using Update_tree_ind; intros Hno Hb.
  - intros t l t' Hp Hrun.
    assert (∃ op field v, leaf_parts u = Some (op, field, v) ∧
                          below n v = true) as (op & field & v & Hparts & Hv).
    { destruct u; try done; simpl in Hb |- *; by eexists _, _, _. }
    rewrite (leaf_parts_compile _ _ _ _ Hparts) in Hrun |- *.
    unfold leaf_update in Hrun |- *.
    rewrite wrap_run in Hrun. injection Hrun as <- <-.
    apply wrap_relocate; [done|].
    unfold shift_obj. by rewrite map_fmap_singleton, shift_below.
  - intros t l t' Hp Hrun. rewrite ToBsonUpdate_combined in Hrun |- *.
    apply bind_Done in Hrun as (result & s0 & Halloc & Hrun).
    rewrite new_map_unfold in Halloc. injection Halloc as <- <-.
    apply bind_Done in Hrun as ([] & s' & Hloop & Hret).
    injection Hret as <- <-.
    assert (Hm0 : merging t (t ++ [∅])).
    { split; [by apply prefix_app_r|]. exists ∅.
      split; [apply lookup_new|]. by intros k v ?. }
    simpl in Hno, Hb.
    assert (Hfresh : Forall (on_some compiles_fresh) us).
    { rewrite forallb_forall in Hno. apply Forall_forall.
      intros [g|] Hin; [|done]. apply ToBsonUpdate_fresh.
      by apply (Hno (Some g)), list_elem_of_In. }
    assert (Hrel : Forall (on_some relocates) us).
    { rewrite forallb_forall in Hno.
      rewrite Forall_forall in IH |- *. intros [g|] Hin; [|done].
      apply (IH _ Hin). by apply (Hno (Some g)), list_elem_of_In. }
    rewrite bind_unfold.
    rewrite (new_map_relocate t ∅)
      by (done || by unfold shift_obj; rewrite fmap_empty).
    rewrite bind_unfold.
    by rewrite (merge_children_relocate t us Hfresh Hrel Hb Hp _ _ Hm0 Hloop).
Qed.

End Relocation.

(** ** What compiling does to the store *)

Section Effects.

(** A second compilation, from the store the first one left. *)
Lemma ToMongo_again f (h : heap) l new :
  Filter_below (length h) f = true →
  ToMongo f h = Done l (h ++ new) →
  ToMongo f (h ++ new) =
  Done (l + length new)
       ((h ++ new) ++ (shift_obj (length h) (length new) <$> new)).
Proof.
  intros Hb Hrun.
  pose proof (ToMongo_relocate (length h) (length new) h (h ++ new)
                (Nat.le_refl _) (length_app h new) f Hb h l (h ++ new)
                (reflexivity h) Hrun) as H.
  by rewrite relocate_base, relocate_ext in H.
Qed.

Lemma ToBsonUpdate_again u (h : heap) l new :
  no_SetFields u = true → Update_below (length h) u = true →
  ToBsonUpdate u h = Done l (h ++ new) →
  ToBsonUpdate u (h ++ new) =
  Done (l + length new)
       ((h ++ new) ++ (shift_obj (length h) (length new) <$> new)).
Proof.
  intros Hno Hb Hrun.
  pose proof (ToBsonUpdate_relocate (length h) (length new) h (h ++ new)
                (Nat.le_refl _) (length_app h new) u Hno Hb h l (h ++ new)
                (reflexivity h) Hrun) as H.
  by rewrite relocate_base, relocate_ext in H.
Qed.

(** The defect left out of the theorem below: in a [Combine], the merge
    of a later child writes into the payload of an earlier one, and the
    payload of a [SetFields] child is the map the node holds. *)
Lemma Combine_writes_into_SetFields_map :
  call_ToBsonUpdate (Combine [SetFields (Some 0); Set' "b" (VInt 2)])
    [ {["a" := VInt 1]} ] =
  Done 1 [ <["b" := VInt 2]> {["a" := VInt 1]};
           {["$set" := VM (Some 0)]}; {["$set" := VM (Some 0)]};
           {["b" := VInt 2]}; {["$set" := VM (Some 3)]} ].
Proof. vm_compute. reflexivity. Qed.

(** C1, as stated, fails: the structure [ToPipeline] returns is made of
    the builder's own stage objects.  After [NewPipeline().Limit(5)] the
    builder holds the object 0 as its stage, [ToPipeline] returns that
    same object, and a write through the returned reference changes the
    stage of the builder. *)
Lemma ToPipeline_returns_the_builders_objects :
  Pipeline_Limit 5 NewPipeline [] =
    Done {| stages := [Some 0] |} [ {["$limit" := VInt 5]} ] ∧
  ¬ shares_no_object (ToPipeline {| stages := [Some 0] |})
                     {| stages := [Some 0] |} ∧
  store 0 "$limit" (VInt 0) [ {["$limit" := VInt 5]} ] =
    Done tt [ {["$limit" := VInt 0]} ].
Proof.
  split; [reflexivity|]. split; [|reflexivity].
  intros H. apply (H 0); apply list_elem_of_singleton; reflexivity.
Qed.

(** C1, amended.  Compiling a filter, or an update tree without
    [SetFields], only adds objects at the end of the store: every object
    that was there is unchanged, and the map returned is one of the added
    objects.  When the values of the node refer to objects of the store
    it is compiled from, compiling it again from the store the first
    compilation left adds the same objects once more, the references
    among them displaced to the new copies.  A [SetFields] leaf adds the
    one map it returns, whose payload is the map the leaf holds, not a
    copy.  [ToPipeline] touches nothing and returns the stage sequence of
    the builder itself. *)
Theorem compile_effects :
  (∀ f (h : heap) l h',
     ToMongo f h = Done l h' →
     ∃ new, h' = h ++ new ∧ length h ≤ l < length h' ∧
       (Filter_below (length h) f = true →
        ToMongo f h' =
        Done (l + length new)
             (h' ++ (shift_obj (length h) (length new) <$> new)))) ∧
  (∀ u (h : heap) l h',
     no_SetFields u = true →
     ToBsonUpdate u h = Done l h' →
     ∃ new, h' = h ++ new ∧ length h ≤ l < length h' ∧
       (Update_below (length h) u = true →
        ToBsonUpdate u h' =
        Done (l + length new)
             (h' ++ (shift_obj (length h) (length new) <$> new)))) ∧
  (∀ fields (h : heap),
     ToBsonUpdate (setFieldsUpdate fields) h =
     Done (length h) (h ++ [ {["$set" := VM fields]} ])) ∧
  (∀ p, ToPipeline p = stages p).
Proof.
  split; [|split; [|split]]; [| |done|done].
  - intros f h l h' Hrun.
    destruct (ToMongo_fresh _ _ _ _ Hrun) as [[new ->] Hl].
    exists new. repeat split; try done; try lia.
    intros Hb. by apply ToMongo_again.
  - intros u h l h' Hno Hrun.
    destruct (ToBsonUpdate_fresh u Hno _ _ _ Hrun) as [[[new ->] Hl] _].
    exists new. repeat split; try done; try lia.
    intros Hb. by apply ToBsonUpdate_again.
Qed.

Lemma compile_effects_witness :
  let u := combinedUpdate [Set' "a" (VInt 1); Set' "b" (VInt 2)] in
  let new : heap := [ {["$set" := VM (Some 1)]};
                      <["b" := VInt 2]> {["a" := VInt 1]};
                      {["$set" := VM (Some 1)]}; {["b" := VInt 2]};
                      {["$set" := VM (Some 3)]} ] in
  no_SetFields u = true ∧ ToBsonUpdate u [] = Done 0 new ∧
  ToBsonUpdate u new =
  Done 5 (new ++ [ {["$set" := VM (Some 6)]};
                   <["b" := VInt 2]> {["a" := VInt 1]};
                   {["$set" := VM (Some 6)]}; {["b" := VInt 2]};
                   {["$set" := VM (Some 8)]} ]).
Proof.
  intros u new.
  assert (Hrun : ToBsonUpdate u [] = Done 0 new)
    by (vm_compute; reflexivity).
  split; [reflexivity|]. split; [exact Hrun|].
  destruct compile_effects as (_ & H & _).
  destruct (H u [] 0 new eq_refl Hrun) as (new' & E & _ & Hagain).
  simpl in E. subst new'. rewrite (Hagain eq_refl).
  vm_compute. reflexivity.
Defined.

End Effects.

(** ** Filters: more on construction and compilation *)

Section Filters_more.

(** X1.  The children of an [And] argument are spliced in wherever the
    argument stands, among any other arguments. *)
Theorem And_splice (xs ys zs : list (option Filter)) :
  Forall (λ y, wf y = true) ys →
  And (xs ++ And ys :: zs) = And (xs ++ ys ++ zs) ∧
  Or (xs ++ Or ys :: zs) = Or (xs ++ ys ++ zs).
Proof.
  intros Hys. rewrite Forall_forall in Hys.
  assert (EA : flatAnd (xs ++ And ys :: zs) = flatAnd (xs ++ ys ++ zs)).
  { rewrite !flatAnd_app.
    by rewrite (flatAnd_And ys zs) by (by apply flatAnd_normalized). }
  assert (EO : flatOr (xs ++ Or ys :: zs) = flatOr (xs ++ ys ++ zs)).
  { rewrite !flatOr_app.
    by rewrite (flatOr_Or ys zs) by (by apply flatOr_normalized). }
  split.
  - unfold And at 1 3. by rewrite EA.
  - unfold Or at 1 3. by rewrite EO.
Qed.

Lemma And_splice_witness :
  let ys := [Eq "b" (VInt 2); None; And [Eq "c" (VInt 3); Eq "d" (VInt 4)]] in
  Forall (λ y, wf y = true) ys ∧
  And ([Eq "a" (VInt 1)] ++ And ys :: [Eq "e" (VInt 5)]) =
  And ([Eq "a" (VInt 1)] ++ ys ++ [Eq "e" (VInt 5)]).
Proof.
  intros ys.
  assert (H : Forall (λ y, wf y = true) ys)
    by (repeat constructor).
  split; [exact H|].
  exact (proj1 (And_splice [Eq "a" (VInt 1)] ys [Eq "e" (VInt 5)] H)).
Defined.

(** The object a compiled filter is, once compiled, stays what it is
    while other filters are compiled. *)
Lemma parts_of_one_key fs :
  Forall (on_some (λ g, ∀ (h : heap) l h', ToMongo g h = Done l h' →
                        ∃ k v, h' !! l = Some {[k := v]})) fs →
  ∀ (h : heap) ls h', parts_of fs h = Done ls h' →
    Forall (λ l, ∃ k v, h' !! l = Some {[k := v]}) ls.
Proof.
  induction 1 as [|c fs Hc _ IH]; intros h ls h' Hrun.
  - injection Hrun as <- <-. constructor.
  - destruct c as [g|]; simpl in Hrun; [|by eapply IH].
    apply bind_Done in Hrun as (l & h1 & Hg & Hrun).
    apply bind_Done in Hrun as (ls' & h2 & Hrest & Hrun).
    injection Hrun as <- <-.
    destruct (Hc _ _ _ Hg) as (k & v & Hl).
    destruct (parts_of_fresh_all _ _ _ _ Hrest) as [Hp _].
    constructor; [|by eapply IH].
    exists k, v. by eapply prefix_lookup_Some'.
Qed.

Lemma lookup_wrap (h : heap) (m x : gmap string value) :
  (h ++ [m] ++ [x]) !! (length h + 1) = Some x.
Proof. by rewrite lookup_app_plus. Qed.

(** X2.  Whatever the filter, the map [ToMongo] returns has exactly one
    key. *)
Theorem ToMongo_one_key (f : Filter) (h : heap) l h' :
  ToMongo f h = Done l h' → ∃ k v, h' !! l = Some {[k := v]}.
Proof.
  revert h l h'. induction f as
    [field v|field op v|field pattern options|field c IH|fs IH|fs IH|c IH]
    using Filter_tree_ind; intros h l h' Hrun.
  - injection Hrun as <- <-. eexists _, _. apply lookup_new.
  - simpl in Hrun. rewrite wrap_run in Hrun. injection Hrun as <- <-.
    eexists _, _. apply lookup_wrap.
  - simpl in Hrun. case_decide; rewrite wrap_run in Hrun;
      injection Hrun as <- <-; eexists _, _; apply lookup_wrap.
  - destruct c as [g|]; simpl in Hrun.
    + apply bind_Done in Hrun as (sub & h1 & Hg & Hrun).
      rewrite wrap_run in Hrun. injection Hrun as <- <-.
      eexists _, _. apply lookup_wrap.
    + rewrite bind_unfold, new_map_unfold, wrap_run in Hrun.
      injection Hrun as <- <-. eexists _, _. apply lookup_wrap.
  - rewrite ToMongo_and in Hrun.
    apply bind_Done in Hrun as (parts & h1 & Hparts & Hrun).
    pose proof (parts_of_one_key fs IH _ _ _ Hparts) as Hone.
    destruct parts as [|p [|p' parts]]; injection Hrun as <- <-.
    + eexists _, _. apply lookup_new.
    + by apply Forall_cons in Hone as [? _].
    + eexists _, _. apply lookup_new.
  - rewrite ToMongo_or in Hrun.
    apply bind_Done in Hrun as (parts & h1 & Hparts & Hrun).
    pose proof (parts_of_one_key fs IH _ _ _ Hparts) as Hone.
    destruct parts as [|p [|p' parts]]; injection Hrun as <- <-.
    + eexists _, _. apply lookup_new.
    + by apply Forall_cons in Hone as [? _].
    + eexists _, _. apply lookup_new.
  - destruct c as [g|]; simpl in Hrun; [|done].
    apply bind_Done in Hrun as (sub & h1 & Hg & Hrun).
    injection Hrun as <- <-. eexists _, _. apply lookup_new.
Qed.

Lemma ToMongo_one_key_witness :
  ToMongo (regexFilter "name" "^a" "i") [] =
    Done 1 [ <["$options" := VStr "i"]> {["$regex" := VStr "^a"]};
             {["name" := VM (Some 0)]} ] ∧
  ∃ k v, ([ <["$options" := VStr "i"]> {["$regex" := VStr "^a"]};
            {["name" := VM (Some 0)]} ] : heap) !! 1 = Some {[k := v]}.
Proof.
  split; [reflexivity|].
  exact (ToMongo_one_key (regexFilter "name" "^a" "i") [] 1 _ eq_refl).
Defined.

Lemma parts_of_all fs (h : heap) ls h' :
  Forall (λ c : option Filter, is_Some c) fs →
  parts_of fs h = Done ls h' → length ls = length fs.
Proof.
  intros Hall. revert h ls h'.
  induction Hall as [|c fs [g ->] _ IH]; intros h ls h' Hrun.
  - by injection Hrun as <- <-.
  - simpl in Hrun. apply bind_Done in Hrun as (l & h1 & Hg & Hrun).
    apply bind_Done in Hrun as (ls' & h2 & Hrest & Hrun).
    injection Hrun as <- <-. simpl. f_equal. by eapply IH.
Qed.

(** X3.  A normalized [andFilter] or [orFilter] compiles every one of
    its children, in order, and returns a new map with the operator key
    holding the list of all of them: no child is skipped and the
    container is never replaced by a child at compile time. *)
Theorem container_compiles_every_child (fs : list (option Filter))
    (h : heap) :
  (normalized (andFilter fs) = true →
   ∃ parts hp,
     parts_of fs h = Done parts hp ∧ length parts = length fs ∧
     ToMongo (andFilter fs) h =
     Done (length hp) (hp ++ [ {["$and" := VMs (Some <$> parts)]} ])) ∧
  (normalized (orFilter fs) = true →
   ∃ parts hp,
     parts_of fs h = Done parts hp ∧ length parts = length fs ∧
     ToMongo (orFilter fs) h =
     Done (length hp) (hp ++ [ {["$or" := VMs (Some <$> parts)]} ])).
Proof.
  split; intros Hn.
  - destruct (normalized_andFilter fs Hn) as [Hlen Hch].
    destruct (ToMongo_total _ Hn h) as (l & h' & Hrun).
    rewrite ToMongo_and in Hrun |- *.
    apply bind_Done in Hrun as (parts & hp & Hparts & Hrun).
    assert (Hl : length parts = length fs).
    { eapply parts_of_all; [|exact Hparts]. apply Forall_forall.
      intros c Hc. destruct (Hch c Hc) as (g & -> & _). by eexists. }
    exists parts, hp. split; [done|]. split; [done|].
    rewrite bind_unfold, Hparts.
    destruct parts as [|p [|p' parts]]; simpl in Hl; [done|lia|done].
  - destruct (normalized_orFilter fs Hn) as [Hlen Hch].
    destruct (ToMongo_total _ Hn h) as (l & h' & Hrun).
    rewrite ToMongo_or in Hrun |- *.
    apply bind_Done in Hrun as (parts & hp & Hparts & Hrun).
    assert (Hl : length parts = length fs).
    { eapply parts_of_all; [|exact Hparts]. apply Forall_forall.
      intros c Hc. destruct (Hch c Hc) as (g & -> & _). by eexists. }
    exists parts, hp. split; [done|]. split; [done|].
    rewrite bind_unfold, Hparts.
    destruct parts as [|p [|p' parts]]; simpl in Hl; [done|lia|done].
Qed.

Lemma container_compiles_every_child_witness :
  let fs := [Eq "a" (VInt 1); Not (Eq "b" (VInt 2)); Eq "c" (VInt 3)] in
  normalized (andFilter fs) = true ∧
  ∃ parts hp,
    parts_of fs [] = Done parts hp ∧ length parts = 3 ∧
    ToMongo (andFilter fs) [] =
    Done (length hp) (hp ++ [ {["$and" := VMs (Some <$> parts)]} ]).
Proof.
  intros fs. split; [reflexivity|].
  exact (proj1 (container_compiles_every_child fs []) eq_refl).
Defined.

End Filters_more.

(** ** Combine over any number of single-field leaves *)

Section Combine_leaves.

Lemma nonNil_Some (us : list Update) : nonNil (Some <$> us) = Some <$> us.
Proof.
  induction us as [|u us IH]; [done|].
  rewrite fmap_cons. cbn [nonNil]. by rewrite IH.
Qed.

Lemma Combine_many (us : list Update) :
  2 ≤ length us → Combine (Some <$> us) = Some (combinedUpdate (Some <$> us)).
Proof.
  intros Hlen. unfold Combine. rewrite nonNil_Some.
  destruct us as [|u1 [|u2 us]]; simpl in Hlen; [lia|lia|done].
Qed.

(** One round of the loop: a leaf is compiled and merged. *)
Lemma merge_leaf t s M u op field v :
  merging_leaves t s M → leaf_parts u = Some (op, field, v) →
  ∃ s',
    (compiled ← call_ToBsonUpdate (Some u);
     merge_child (length t) compiled) s = Done tt s' ∧
    merging_leaves t s'
      (<[op := <[field := v]> (default ∅ (M !! op))]> M).
Proof.
  intros (Hp & Hne & o & Ho & HM & Hinj) Hparts.
  pose proof (prefix_length _ _ Hp) as Hlen.
  assert (Hr : length t < length s) by lia.
  set (s1 := s ++ [ {[field := v]}; {[op := VM (Some (length s))]} ]).
  assert (Hstep : (compiled ← call_ToBsonUpdate (Some u);
                   merge_child (length t) compiled) s =
                  merge_entry (length t) (op, VM (Some (length s))) s1).
  { rewrite bind_unfold. unfold call_ToBsonUpdate.
    rewrite (leaf_parts_compile _ _ _ _ Hparts).
    rewrite <- (app_nil_r s) at 1. rewrite leaf_update_app.
    simpl length. simpl app at 2.
    rewrite (merge_child_single _ _ _ op (VM (Some (length s + 0))))
      by (by rewrite (lookup_app_plus s _ 1)).
    by rewrite Nat.add_0_r. }
  rewrite Hstep. clear Hstep.
  assert (Ho1 : s1 !! length t = Some o)
    by (unfold s1; by rewrite lookup_app_l).
  assert (Hold : ∀ e x, e < length s → s !! e = Some x → s1 !! e = Some x)
    by (intros e x He Hx; unfold s1; by rewrite lookup_app_l).
  assert (Hinner : s1 !! length s = Some {[field := v]}).
  { unfold s1. by rewrite <- (Nat.add_0_r (length s)) at 1;
      rewrite lookup_app_plus. }
  assert (Hl1 : length s1 = length s + 2)
    by (unfold s1; rewrite length_app; done).
  pose proof (HM op) as HMop.
  destruct (M !! op) as [m|] eqn:EM.
  - destruct HMop as (e & Hoe & He & Hse).
    rewrite (merge_entry_merge _ _ _ o e (Some (length s)) m {[field := v]});
      try done; [|by apply Hold; [lia|]].
    eexists. split; [done|]. simpl default.
    rewrite <- insert_union_singleton_l.
    split; [apply prefix_insert_ge; [|lia]; unfold s1; etrans;
            [exact Hp|by apply prefix_app_r]|].
    split; [rewrite length_insert; lia|].
    exists o. split; [by rewrite list_lookup_insert_ne by lia|].
    split; [|done].
    intros op'. rewrite lookup_insert. case_decide as Hop.
    + subst op'. exists e. split; [done|]. split; [rewrite length_insert; lia|].
      apply list_lookup_insert_eq. lia.
    + pose proof (HM op') as HMop'. destruct (M !! op') as [m'|]; [|done].
      destruct HMop' as (e' & Hoe' & He' & Hse').
      exists e'. split; [done|]. split; [rewrite length_insert; lia|].
      rewrite list_lookup_insert_ne; [by apply Hold; [lia|]|].
      intros <-. apply Hop. by eapply Hinj.
  - rewrite (merge_entry_absent _ _ _ _ o) by done.
    eexists. split; [done|]. simpl default. rewrite insert_empty.
    split; [apply prefix_insert_ge; [|lia]; unfold s1; etrans;
            [exact Hp|by apply prefix_app_r]|].
    split; [rewrite length_insert; lia|].
    exists (<[op := VM (Some (length s))]> o).
    split; [apply list_lookup_insert_eq; lia|]. split.
    + intros op'. rewrite !lookup_insert. case_decide as Hop.
      * subst op'. exists (length s). split; [done|].
        split; [rewrite length_insert; lia|].
        by rewrite list_lookup_insert_ne by lia.
      * pose proof (HM op') as HMop'. destruct (M !! op') as [m'|]; [|done].
        destruct HMop' as (e' & Hoe' & He' & Hse').
        exists e'. split; [done|]. split; [rewrite length_insert; lia|].
        rewrite list_lookup_insert_ne by lia. by apply Hold; [lia|].
    + intros op1 op2 e. rewrite !lookup_insert.
      assert (Hbound : ∀ op' e', o !! op' = Some (VM (Some e')) →
                                 e' < length s).
      { intros op' e' Hoe'. pose proof (HM op') as HMop'.
        destruct (M !! op') as [m'|]; [|congruence].
        destruct HMop' as (e'' & Hoe'' & He'' & _).
        rewrite Hoe' in Hoe''. injection Hoe'' as ->. lia. }
      repeat case_decide; subst; try done.
      * intros [= <-] H2. apply Hbound in H2. lia.
      * intros H1 [= <-]. apply Hbound in H1. lia.
      * apply Hinj.
Qed.

Lemma merge_leaves t us : ∀ parts s M,
  Forall2 (λ u p, leaf_parts u = Some p) us parts →
  merging_leaves t s M →
  ∃ s', merge_children (length t) (Some <$> us) s = Done tt s' ∧
        merging_leaves t s'
          (foldl (λ acc l,
                    <[l.1.1 := <[l.1.2 := l.2]> (default ∅ (acc !! l.1.1))]>
                      acc) M parts).
Proof.
  induction us as [|u us IH]; intros parts s M Hparts Hm.
  - apply Forall2_nil_inv_l in Hparts as ->. by exists s.
  - apply Forall2_cons_inv_l in Hparts as ([[op field] v] & parts' & Hu & Hrest & ->).
    destruct (merge_leaf t s M u op field v Hm Hu) as (s1 & Hstep & Hm1).
    destruct (IH parts' s1 _ Hrest Hm1) as (s' & Hloop & Hm').
    exists s'. split; [|exact Hm'].
    rewrite fmap_cons, merge_children_cons.
    rewrite bind_unfold in Hstep |- *.
    destruct (call_ToBsonUpdate (Some u) s) as [c sc|]; [|done].
    rewrite bind_unfold, Hstep. exact Hloop.
Qed.

(** X4.  [Combine] over two or more single-field leaves compiles, from
    any store and without touching what is in it, to the update document
    of the leaves: one key per operator, and under it a map with the
    fields of the leaves of that operator, the later leaf winning on a
    common field. *)
Theorem Combine_leaves (us : list Update) parts (h : heap) :
  Forall2 (λ u p, leaf_parts u = Some p) us parts →
  2 ≤ length us →
  ∃ h', call_ToBsonUpdate (Combine (Some <$> us)) h = Done (length h) h' ∧
        h `prefix_of` h' ∧
        reads_as h' (length h) (merged_leaves parts).
Proof.
  intros Hparts Hlen. rewrite (Combine_many us Hlen).
  unfold call_ToBsonUpdate. rewrite ToBsonUpdate_combined.
  assert (Hm0 : merging_leaves h (h ++ [∅]) ∅).
  { split; [by apply prefix_app_r|]. split; [rewrite length_app; simpl; lia|].
    exists ∅. split; [apply lookup_new|]. split; [by intros op|].
    by intros op1 op2 e ?. }
  destruct (merge_leaves h us parts _ _ Hparts Hm0)
    as (h' & Hloop & Hp & _ & o & Ho & HM & _).
  exists h'. rewrite bind_unfold, new_map_unfold, bind_unfold, Hloop.
  split; [done|]. split; [done|].
  exists o. split; [done|]. intros op. pose proof (HM op) as HMop.
  unfold merged_leaves. destruct (foldl _ ∅ parts !! op) as [m|]; [|done].
  destruct HMop as (e & Hoe & _ & Hse). by exists e.
Qed.

Lemma Combine_leaves_witness :
  let us := [setUpdate "a" (VInt 1); incUpdate "n" (VInt 1);
             setUpdate "a" (VInt 2); setUpdate "b" (VInt 3)] in
  let parts := [("$set", "a", VInt 1); ("$inc", "n", VInt 1);
                ("$set", "a", VInt 2); ("$set", "b", VInt 3)] in
  Forall2 (λ u p, leaf_parts u = Some p) us parts ∧ 2 ≤ length us ∧
  merged_leaves parts =
    <["$inc" := {["n" := VInt 1]}]>
      {["$set" := <["b" := VInt 3]> {["a" := VInt 2]}]} ∧
  ∃ h', call_ToBsonUpdate (Combine (Some <$> us)) [] = Done 0 h' ∧
        reads_as h' 0 (merged_leaves parts).
Proof.
  intros us parts.
  assert (H2 : Forall2 (λ u p, leaf_parts u = Some p) us parts)
    by (repeat constructor).
  assert (Hlen : 2 ≤ length us) by (simpl; lia).
  split; [exact H2|]. split; [exact Hlen|].
  split; [vm_compute; reflexivity|].
  destruct (Combine_leaves us parts [] H2 Hlen) as (h' & E & _ & R).
  exists h'. split; [exact E | exact R].
Defined.

End Combine_leaves.

(** ** The stage methods of the builder *)

Section Stage_calls.

Lemma store_new (h : heap) k v (m : gmap string value) :
  store (length h) k v (h ++ [m]) = Done tt (h ++ [<[k := v]> m]).
Proof.
  rewrite (store_unfold _ _ _ _ m) by apply lookup_new.
  by rewrite insert_new.
Qed.

Lemma add_stage_run key v p (h : heap) :
  add_stage key v p h =
  Done (append_stage p (Some (length h))) (h ++ [ {[key := v]} ]).
Proof. reflexivity. Qed.

(** A stage made of a specification object and the stage map around it. *)
Lemma spec_stage_run key (m : gmap string value) p (h : heap) :
  add_stage key (VM (Some (length h))) p (h ++ [m]) =
  Done (append_stage p (Some (length h + 1)))
       (h ++ [ m; {[key := VM (Some (length h))]} ]).
Proof.
  rewrite add_stage_run, length_app, <- app_assoc. done.
Qed.

Lemma UnwindWithOptions_run path preserve index p (h : heap) :
  Pipeline_UnwindWithOptions path preserve index p h =
  Done (append_stage p (Some (length h + 1)))
       (h ++ [ (if decide (index = EmptyString) then id
                else <["includeArrayIndex" := VStr index]>)
                 ((if preserve
                   then <["preserveNullAndEmptyArrays" := VBool true]>
                   else id) {["path" := VStr path]});
               {["$unwind" := VM (Some (length h))]} ]).
Proof.
  unfold Pipeline_UnwindWithOptions.
  rewrite bind_unfold, new_map_unfold.
  destruct preserve; case_decide;
    rewrite ?bind_unfold, ?store_new, ?mret_unfold, ?bind_unfold,
      ?store_new, ?mret_unfold; apply spec_stage_run.
Qed.

Lemma LookupWithPipeline_run from let_ pipeline as_ p (h : heap) :
  Pipeline_LookupWithPipeline from let_ pipeline as_ p h =
  Done (append_stage p (Some (length h + 1)))
       (h ++ [ (match let_ with
                | Some _ => <["let" := VM let_]>
                | None => id
                end)
                 (<["from" := VStr from]>
                    (<["pipeline" := VMs pipeline]> {["as" := VStr as_]}));
               {["$lookup" := VM (Some (length h))]} ]).
Proof.
  unfold Pipeline_LookupWithPipeline.
  rewrite bind_unfold, new_map_unfold.
  destruct let_;
    rewrite ?bind_unfold, ?store_new, ?mret_unfold; apply spec_stage_run.
Qed.

Lemma Bucket_run groupBy boundaries defaultBucket output p (h : heap) :
  Pipeline_Bucket groupBy boundaries defaultBucket output p h =
  Done (append_stage p (Some (length h + 1)))
       (h ++ [ (match output with
                | Some _ => <["output" := VM output]>
                | None => id
                end)
                 ((match defaultBucket with
                   | VNil => id
                   | _ => <["default" := defaultBucket]>
                   end)
                    (<["groupBy" := groupBy]>
                       {["boundaries" := VAnys boundaries]}));
               {["$bucket" := VM (Some (length h))]} ]).
Proof.
  unfold Pipeline_Bucket.
  rewrite bind_unfold, new_map_unfold.
  destruct defaultBucket, output;
    rewrite ?bind_unfold, ?store_new, ?mret_unfold, ?bind_unfold,
      ?store_new, ?mret_unfold; apply spec_stage_run.
Qed.

Lemma Merge_run into on whenMatched whenNotMatched p (h : heap) :
  Pipeline_Merge into on whenMatched whenNotMatched p h =
  Done (append_stage p (Some (length h + 1)))
       (h ++ [ (if decide (whenNotMatched = EmptyString) then id
                else <["whenNotMatched" := VStr whenNotMatched]>)
                 ((if decide (whenMatched = EmptyString) then id
                   else <["whenMatched" := VStr whenMatched]>)
                    ((match on with
                      | [] => id
                      | _ => <["on" := VStrs on]>
                      end) {["into" := VStr into]}));
               {["$merge" := VM (Some (length h))]} ]).
Proof.
  unfold Pipeline_Merge.
  rewrite bind_unfold, new_map_unfold.
  destruct on; repeat case_decide;
    rewrite ?bind_unfold, ?store_new, ?mret_unfold, ?bind_unfold,
      ?store_new, ?mret_unfold, ?bind_unfold, ?store_new, ?mret_unfold;
    apply spec_stage_run.
Qed.

Lemma GroupBy_run idExpr accumulators p (h : heap) acc :
  deref h accumulators = Some acc →
  Pipeline_GroupBy idExpr accumulators p h =
  Done (append_stage p (Some (length h + 1)))
       (h ++ [ acc ∪ {["_id" := idExpr]};
               {["$group" := VM (Some (length h))]} ]).
Proof.
  intros Hacc. unfold Pipeline_GroupBy.
  rewrite bind_unfold, new_map_unfold, bind_unfold.
  rewrite (map_range_deref _ _ acc) by by apply deref_app.
  rewrite bind_unfold.
  rewrite (for_each_store _ _ _ {["_id" := idExpr]}) by apply lookup_new.
  rewrite put_all_map_to_list, insert_new. apply spec_stage_run.
Qed.

(** A stage with a one-key specification object. *)
Lemma wrapped_stage_run key (m : gmap string value) p (h : heap) :
  (inner ← new_map m; add_stage key (VM (Some inner)) p) h =
  Done (append_stage p (Some (length h + 1)))
       (h ++ [ m; {[key := VM (Some (length h))]} ]).
Proof. rewrite bind_unfold, new_map_unfold. apply spec_stage_run. Qed.

(** One call: it returns, keeps the store and the earlier stages, and
    appends its stage, unless it is a match on nil. *)
Lemma run_call_effect c p (h : heap) :
  call_ready h c →
  ∃ p' h', run_call c p h = Done p' h' ∧ h `prefix_of` h' ∧
    if adds_stage c
    then ∃ st, p' = append_stage p st ∧ stage_of h h' c st
    else p' = p ∧ h' = h.
Proof.
  assert (Hone : ∀ key v,
    ∃ p' h', add_stage key v p h = Done p' h' ∧ h `prefix_of` h' ∧
      ∃ st, p' = append_stage p st ∧
        ∃ l w, st = Some l ∧ length h ≤ l ∧ h' !! l = Some {[key := w]}).
  { intros key v. eexists _, _. split; [apply add_stage_run|].
    split; [by apply prefix_app_r|]. eexists. split; [done|].
    eexists _, _. split; [done|]. split; [done|]. apply lookup_new. }
  assert (Htwo : ∀ key (m : gmap string value) r,
    r = Done (append_stage p (Some (length h + 1)))
             (h ++ [ m; {[key := VM (Some (length h))]} ]) →
    ∃ p' h', r = Done p' h' ∧ h `prefix_of` h' ∧
      ∃ st, p' = append_stage p st ∧
        ∃ l w, st = Some l ∧ length h ≤ l ∧ h' !! l = Some {[key := w]}).
  { intros key m r ->. eexists _, _. split; [done|].
    split; [by apply prefix_app_r|]. eexists. split; [done|].
    eexists _, _. split; [done|]. split; [lia|].
    by rewrite lookup_app_plus. }
  intros Hready.
  destruct c; simpl run_call; simpl adds_stage; unfold stage_of;
    simpl stage_key; try apply Hone.
  - (* Match *)
    destruct filter as [f|]; [|by eexists _, _].
    simpl in Hready. destruct (ToMongo_total f Hready h) as (m & h1 & Hf).
    destruct (ToMongo_fresh _ _ _ _ Hf) as [Hp Hm].
    eexists _, _. split.
    { simpl. rewrite bind_unfold, Hf. apply add_stage_run. }
    split; [etrans; [exact Hp|by apply prefix_app_r]|].
    eexists. split; [done|]. eexists _, _. split; [done|].
    split; [|apply lookup_new]. apply prefix_length in Hp. lia.
  - (* MatchRaw *)
    destruct filter as [l|]; [apply Hone|by eexists _, _].
  - (* GroupBy *)
    destruct Hready as [acc Hacc]. eapply Htwo. by apply GroupBy_run.
  - (* SortBy *) eapply Htwo. apply wrapped_stage_run.
  - (* UnwindWithOptions *) eapply Htwo. apply UnwindWithOptions_run.
  - (* Lookup *) eapply Htwo. apply wrapped_stage_run.
  - (* LookupWithPipeline *) eapply Htwo. apply LookupWithPipeline_run.
  - (* Unset *)
    destruct fields as [|field [|field' fields]]; apply Hone.
  - (* ReplaceRoot *) eapply Htwo. apply wrapped_stage_run.
  - (* Bucket *) eapply Htwo. apply Bucket_run.
  - (* Sample *) eapply Htwo. apply wrapped_stage_run.
  - (* Merge *) eapply Htwo. apply Merge_run.
  - (* Raw *)
    eexists _, _. split; [done|]. split; [done|]. by eexists.
Qed.

Lemma call_ready_mono (h h1 : heap) c :
  h `prefix_of` h1 → call_ready h c → call_ready h1 c.
Proof.
  intros [new ->] Hready. destruct c; try done.
  destruct Hready as [acc Hacc]. exists acc. by apply deref_app.
Qed.

Lemma stage_of_mono (h0 h h1 : heap) c st :
  h `prefix_of` h1 → stage_of h0 h c st → stage_of h0 h1 c st.
Proof.
  intros Hp Hst. destruct c; try done;
    destruct Hst as (l & v & -> & Hl & Hv); exists l, v;
    (split; [done|]); (split; [done|]); by eapply prefix_lookup_Some'.
Qed.

Lemma stage_of_earlier (h0 h1 h : heap) c st :
  h0 `prefix_of` h1 → stage_of h1 h c st → stage_of h0 h c st.
Proof.
  intros Hp%prefix_length Hst. destruct c; try done;
    destruct Hst as (l & v & -> & Hl & Hv); exists l, v;
    (split; [done|]); (split; [lia|done]).
Qed.

(** X5.  A chain of builder calls, each given a normalized filter or an
    accumulator map of the store where it takes one, runs to its end.
    It keeps every object of the store and every earlier stage, and
    appends one stage per call in the order of the calls, except for the
    matches on nil, which append nothing.  The stage of a call other than
    [Raw] is a new map whose only key is the stage name; [Raw] appends
    the very map it is given. *)
Theorem builder_chain (cs : list stage_call) (p : Pipeline) (h : heap) :
  Forall (call_ready h) cs →
  ∃ p' h' new,
    run_calls cs p h = Done p' h' ∧ h `prefix_of` h' ∧
    stages p' = stages p ++ new ∧
    Forall2 (stage_of h h') (List.filter adds_stage cs) new.
Proof.
  revert p h. induction cs as [|c cs IH]; intros p h Hready.
  - exists p, h, []. rewrite app_nil_r. by repeat split.
  - apply Forall_cons in Hready as [Hc Hcs].
    destruct (run_call_effect c p h Hc) as (p1 & h1 & Hrun & Hp1 & Hst).
    destruct (IH p1 h1) as (p' & h' & new & Hrest & Hp' & Hstages & Hnew).
    { eapply Forall_impl; [exact Hcs|]. intros c'. by apply call_ready_mono. }
    assert (Hnew' : Forall2 (stage_of h h') (List.filter adds_stage cs) new).
    { eapply Forall2_impl; [exact Hnew|]. intros c' st.
      by apply stage_of_earlier. }
    simpl run_calls. rewrite bind_unfold, Hrun. simpl List.filter.
    destruct (adds_stage c).
    + destruct Hst as (st & -> & Hst).
      exists p', h', (st :: new). split; [done|].
      split; [by etrans|]. split.
      * rewrite Hstages. simpl. by rewrite <- app_assoc.
      * constructor; [|done]. by eapply stage_of_mono.
    + destruct Hst as [-> ->]. by exists p', h', new.
Qed.

Lemma builder_chain_witness :
  let cs := [call_Match (Eq "status" (VStr "active")); call_Match None;
             call_GroupBy (VStr "$category") None; call_Raw (Some 7);
             call_Limit 5] in
  Forall (call_ready []) cs ∧
  ∃ p' h' new,
    run_calls cs NewPipeline [] = Done p' h' ∧
    stages p' = new ∧ length new = 4.
Proof.
  intros cs.
  assert (H : Forall (call_ready []) cs).
  { repeat constructor. by exists ∅. }
  split; [exact H|].
  destruct (builder_chain cs NewPipeline [] H)
    as (p' & h' & new & Hrun & _ & Hst & Hnew).
  exists p', h', new. split; [exact Hrun|]. split; [exact Hst|].
  by apply Forall2_length in Hnew.
Defined.

(** X6.  The optional keys of a stage specification are written only for
    an argument that is not the zero value: [UnwindWithOptions] writes
    "preserveNullAndEmptyArrays" only when asked to preserve and
    "includeArrayIndex" only for a non-empty name; [Merge] writes "on",
    "whenMatched" and "whenNotMatched" only for a non-empty list or
    string; [LookupWithPipeline] writes "let" only for a map that is not
    nil; [Bucket] writes "default" only for a value that is not nil.  A
    key that is written holds the argument. *)
Theorem optional_stage_keys (p : Pipeline) (h : heap) :
  (∀ path preserve index, ∃ o,
     Pipeline_UnwindWithOptions path preserve index p h =
     Done (append_stage p (Some (length h + 1)))
          (h ++ [o; {["$unwind" := VM (Some (length h))]}]) ∧
     o !! "path" = Some (VStr path) ∧
     o !! "preserveNullAndEmptyArrays" =
       (if preserve then Some (VBool true) else None) ∧
     o !! "includeArrayIndex" =
       (if decide (index = EmptyString) then None else Some (VStr index))) ∧
  (∀ into on whenMatched whenNotMatched, ∃ o,
     Pipeline_Merge into on whenMatched whenNotMatched p h =
     Done (append_stage p (Some (length h + 1)))
          (h ++ [o; {["$merge" := VM (Some (length h))]}]) ∧
     o !! "into" = Some (VStr into) ∧
     o !! "on" = (match on with [] => None | _ => Some (VStrs on) end) ∧
     o !! "whenMatched" =
       (if decide (whenMatched = EmptyString) then None
        else Some (VStr whenMatched)) ∧
     o !! "whenNotMatched" =
       (if decide (whenNotMatched = EmptyString) then None
        else Some (VStr whenNotMatched))) ∧
  (∀ from let_ pipeline as_, ∃ o,
     Pipeline_LookupWithPipeline from let_ pipeline as_ p h =
     Done (append_stage p (Some (length h + 1)))
          (h ++ [o; {["$lookup" := VM (Some (length h))]}]) ∧
     o !! "from" = Some (VStr from) ∧
     o !! "pipeline" = Some (VMs pipeline) ∧
     o !! "as" = Some (VStr as_) ∧
     o !! "let" = (match let_ with Some _ => Some (VM let_) | None => None end)) ∧
  (∀ groupBy boundaries defaultBucket output, ∃ o,
     Pipeline_Bucket groupBy boundaries defaultBucket output p h =
     Done (append_stage p (Some (length h + 1)))
          (h ++ [o; {["$bucket" := VM (Some (length h))]}]) ∧
     o !! "groupBy" = Some groupBy ∧
     o !! "boundaries" = Some (VAnys boundaries) ∧
     o !! "default" =
       (match defaultBucket with VNil => None | _ => Some defaultBucket end) ∧
     o !! "output" =
       (match output with Some _ => Some (VM output) | None => None end)).
Proof.
  split; [|split; [|split]].
  - intros path preserve index. eexists.
    split; [apply UnwindWithOptions_run|].
    destruct preserve; case_decide; by simplify_map_eq.
  - intros into on whenMatched whenNotMatched. eexists.
    split; [apply Merge_run|].
    destruct on; repeat case_decide; by simplify_map_eq.
  - intros from let_ pipeline as_. eexists.
    split; [apply LookupWithPipeline_run|].
    destruct let_; by simplify_map_eq.
  - intros groupBy boundaries defaultBucket output. eexists.
    split; [apply Bucket_run|].
    destruct defaultBucket, output; by simplify_map_eq.
Qed.

End Stage_calls.
